(** * A ledger engine in JavaScript: transactions, blocks, proof of work, balances

    Shallow embedding of the classes [Transaction], [Block] and [Blockchain]
    (the second document of [src/src/wallet.js]) and the properties that the
    specification states about them.

    Conventions of the embedding.
    - A JavaScript address is [null] or a string: [option string].  It is
      truthy when it is a non-empty string.
    - JavaScript numbers that carry value (amounts, fees, balances, rewards)
      are rationals [Qc].  A double is the rational that it is, and a
      rational that is no double stands for the double nearest to it, as
      a decimal literal of the source does.  The test of the balance in
      [addTransaction] is made on doubles, with the sum rounded as IEEE 754
      rounds it ([Double]).  The updates of balances, fees and rewards are
      written with the exact operations: they give what the source stores
      when the result is a double, and differ from it in the last place
      otherwise.  Counters and clocks ([nonce], [Date.now()]) are integers.
    - [crypto.createHash('sha256')...digest('hex')] and [JSON.stringify] are
      library code: they are the two operations of the class [Crypto].
    - [Date.now()] and [crypto.randomUUID()] are inputs of the operation that
      reads them.
    - A thrown [Error] is an [Outcome] that carries the state the object was
      left in: what was mutated before the [throw] stays mutated.
    - The proof-of-work loop is unbounded: it runs on fuel, and [None] means
      that the fuel ran out before a hash met the target. *)

From Stdlib Require Import Ascii String QArith Qcanon Lqa.
From stdpp Require Import base numbers strings list gmap fin_maps pretty relations sorting.

Set Default Proof Using "Type".

(** ** JavaScript values *)

(** [!x] is false exactly for a non-empty string. *)
Definition truthy (x : option string) : bool :=
  match x with
  | Some s => negb (String.eqb s "")
  | None => false
  end.

(** [Math.max] on two numbers. *)
Definition Math_max (x y : Qc) : Qc := if decide (x < y)%Qc then y else x.

(** [x < y] on numbers, as a boolean. *)
Definition Qc_ltb (x y : Qc) : bool := bool_decide (x < y)%Qc.

(** Decimal literals of the source. *)
Definition dec (n : Z) (d : positive) : Qc := Q2Qc (n # d).

(** ** IEEE 754 double precision

    The finite doubles are the rationals [m * 2^e] with [|m| < 2^53] and
    [-1074 <= e]; [round] takes a rational to the nearest of them, and to
    the one with the even [m] when two are equally near.  Overflow beyond
    [2^1024] is not modelled. *)

Module Double.

(** [n / (d * 2^e)] as a fraction of two integers. *)
Definition scaled (n : Z) (d : positive) (e : Z) : Z * Z :=
  if (0 <=? e)%Z then (n, Z.pos d * 2 ^ e)%Z else (n * 2 ^ (- e), Z.pos d)%Z.

(** The exponent [e] of the doubles around [n / d], for [0 < n]:
    [2^52 <= n / (d * 2^e) < 2^53], unless that is below the exponent
    [-1074] of the subnormal doubles. *)
Definition exponent (n : Z) (d : positive) : Z :=
  let l := (Z.log2 n - Z.log2 (Z.pos d))%Z in
  let '(num, den) := scaled n d l in
  let magnitude := if (den <=? num)%Z then l else (l - 1)%Z in
  Z.max (magnitude - 52) (-1074).

(** [num / den] rounded to the nearest integer, a tie to the even one. *)
Definition nearest_even (num den : Z) : Z :=
  let q := (num / den)%Z in
  match (2 * (num mod den) ?= den)%Z with
  | Lt => q
  | Gt => (q + 1)%Z
  | Eq => if Z.even q then q else (q + 1)%Z
  end.

Definition round_pos (n : Z) (d : positive) : Q :=
  let e := exponent n d in
  let '(num, den) := scaled n d e in
  let m := nearest_even num den in
  if (0 <=? e)%Z then inject_Z (m * 2 ^ e) else m # Z.to_pos (2 ^ (- e)).

(** The double nearest to [q]. *)
Definition round (q : Qc) : Qc :=
  match Qnum q with
  | Z0 => q
  | Zpos n => Q2Qc (round_pos (Zpos n) (Qden q))
  | Zneg n => Q2Qc (- round_pos (Zpos n) (Qden q))
  end.

(** [q] is a double. *)
Definition representable (q : Qc) : Prop := round q = q.

(** [x + y] of the source, on the doubles that [x] and [y] stand for. *)
Definition add (x y : Qc) : Qc := round (round x + round y).

End Double.

(** * The embedding *)

(** ** Transaction *)

Module Transaction.

(** [data]: the only field that the ledger reads is [tokenName]
    ([undefined] for the default [{}]). *)
Record Data := { tokenName : option string }.

Record t := {
  id : string;
  from : option string;
  to : option string;
  amount : Qc;
  type : string;
  data : Data;
  timestamp : Z;
  fee : Qc;
  signature : option string
}.

(** [calculateFee()] *)
Definition calculateFee (amount : Qc) : Qc :=
  let baseFee := dec 1 1000 in
  let amountFee := (amount * dec 1 10000)%Qc in
  Math_max baseFee amountFee.

(** [new Transaction(from, to, amount, type, data, customFee)]; [uuid] is
    the value of [crypto.randomUUID()] and [now] that of [Date.now()]. *)
Definition new (uuid : string) (now : Z) (from to : option string) (amount : Qc)
    (type : string) (data : Data) (customFee : option Qc) : t :=
  {| id := uuid; from := from; to := to; amount := amount; type := type;
     data := data; timestamp := now;
     fee := match customFee with Some f => f | None => calculateFee amount end;
     signature := None |}.

(** [sign(privateKey)] stores the hexadecimal RSA signature of the content
    hash; [sig] is that string. *)
Definition sign (sig : string) (tx : t) : t :=
  {| id := id tx; from := from tx; to := to tx; amount := amount tx;
     type := type tx; data := data tx; timestamp := timestamp tx;
     fee := fee tx; signature := Some sig |}.

(** [isValid()] *)
Definition isValid (tx : t) : bool :=
  if String.eqb (type tx) "mining_reward" || String.eqb (type tx) "mint_token" then true
  else if negb (truthy (signature tx)) then false
  else if negb (truthy (from tx)) then false
  else match signature tx with
       | Some s => truthy (signature tx) && (0 <? String.length s)
       | None => false
       end.

End Transaction.

(** ** Library operations *)

Class Crypto := {
  (** [crypto.createHash('sha256').update(s).digest('hex')] *)
  sha256_hex : string → string;
  (** [JSON.stringify] of an array of transactions *)
  JSON_stringify : list Transaction.t → string
}.

(** ** Block *)

Module Block.

Record t := {
  timestamp : Z;
  transactions : list Transaction.t;
  previousHash : string;
  nonce : N;
  hash : string;
  miner : option string;
  reward : Qc;
  difficulty : nat
}.

Definition set_nonce (n : N) (b : t) : t :=
  {| timestamp := timestamp b; transactions := transactions b;
     previousHash := previousHash b; nonce := n; hash := hash b;
     miner := miner b; reward := reward b; difficulty := difficulty b |}.

Definition set_hash (h : string) (b : t) : t :=
  {| timestamp := timestamp b; transactions := transactions b;
     previousHash := previousHash b; nonce := nonce b; hash := h;
     miner := miner b; reward := reward b; difficulty := difficulty b |}.

Definition set_miner (m : option string) (b : t) : t :=
  {| timestamp := timestamp b; transactions := transactions b;
     previousHash := previousHash b; nonce := nonce b; hash := hash b;
     miner := m; reward := reward b; difficulty := difficulty b |}.

Definition set_reward (r : Qc) (b : t) : t :=
  {| timestamp := timestamp b; transactions := transactions b;
     previousHash := previousHash b; nonce := nonce b; hash := hash b;
     miner := miner b; reward := r; difficulty := difficulty b |}.

(** [this.transactions.push(tx)] through another reference to the array:
    the stored hash is not recomputed. *)
Definition push_transaction (tx : Transaction.t) (b : t) : t :=
  {| timestamp := timestamp b; transactions := transactions b ++ [tx];
     previousHash := previousHash b; nonce := nonce b; hash := hash b;
     miner := miner b; reward := reward b; difficulty := difficulty b |}.

(** [Array(difficulty + 1).join('0')] *)
Fixpoint target (difficulty : nat) : string :=
  match difficulty with
  | O => ""
  | S d => String "0"%char (target d)
  end.

(** [calculateReward()] *)
Definition calculateReward (b : t) : Qc :=
  let baseReward := dec 10 1 in
  let feeReward := foldl (λ sum tx, (sum + Transaction.fee tx)%Qc) (dec 0 1) (transactions b) in
  (baseReward + feeReward)%Qc.

(** [hasValidTransactions()] *)
Definition hasValidTransactions (b : t) : bool :=
  forallb Transaction.isValid (transactions b).

Section WithCrypto.
Context `{Crypto}.

(** [calculateHash()] *)
Definition calculateHash (b : t) : string :=
  sha256_hex (previousHash b +:+ pretty (timestamp b)
              +:+ JSON_stringify (transactions b) +:+ pretty (nonce b)).

(** [new Block(timestamp, transactions, previousHash)] *)
Definition new (timestamp : Z) (transactions : list Transaction.t)
    (previousHash : string) : t :=
  let this := {| timestamp := timestamp; transactions := transactions;
                 previousHash := previousHash; nonce := 0; hash := "";
                 miner := None; reward := dec 0 1; difficulty := 4 |} in
  set_hash (calculateHash this) this.

(** The [while] loop of [mineBlock]: one unit of fuel per iteration. *)
Fixpoint mine_loop (fuel : nat) (difficulty : nat) (b : t) : option t :=
  if negb (String.eqb (substring 0 difficulty (hash b)) (target difficulty)) then
    match fuel with
    | O => None
    | S fuel' =>
        let b1 := set_nonce (nonce b + 1) b in
        mine_loop fuel' difficulty (set_hash (calculateHash b1) b1)
    end
  else Some b.

(** [mineBlock(difficulty, minerAddress)] *)
Definition mineBlock (fuel : nat) (difficulty : nat) (minerAddress : option string)
    (b : t) : option t :=
  match mine_loop fuel difficulty b with
  | None => None
  | Some b' =>
      let b2 := set_miner minerAddress b' in
      Some (set_reward (calculateReward b2) b2)
  end.

End WithCrypto.

End Block.

(** ** Blockchain *)

Module Blockchain.

(** The value stored by [this.tokenInfo.set(name, {...})]. *)
Record TokenInfo := {
  name : string;
  symbol : string;
  totalSupply : Qc;
  creator : option string;
  createdAt : Z
}.

(** What [this.emit] sends to the listeners. *)
Inductive Event :=
| transactionAdded (tx : Transaction.t)
| blockMined (b : Block.t).

(** The messages of the [Error]s that the ledger throws, named as the
    specification names them; [TypeError] is the runtime's own.
    - [MissingParties]: '交易必须包含发送方和接收方地址'
    - [InvalidSignature]: '无效的交易签名'
    - [InsufficientFunds]: '余额不足'
    - [InsufficientTokenBalance]: '代币余额不足'
    - [TokenAlreadyExists]: '代币已存在' *)
Inductive Error :=
| MissingParties
| InvalidSignature
| InsufficientFunds
| InsufficientTokenBalance
| TokenAlreadyExists
| TypeError.

(** The state of a [Blockchain] object.  [balances] and [tokens] are [Map]s
    whose keys are the addresses found in transactions; the inner maps of
    [tokens] have token names as keys ([None] is [undefined]).

    Two fields are the embedding's.
    - [aliased]: [new Block(Date.now(), this.pendingTransactions, ...)]
      stores the pool array itself in the block, and the pool is replaced
      by a fresh array only by the last assignment of a
      [minePendingTransactions] that did not throw.  [aliased] counts the
      blocks at the end of [chain] whose [transactions] are still the pool
      array; a push on the pool is a push on them.
    - [emitted]: the events sent so far, oldest first. *)
Record t := {
  chain : list Block.t;
  difficulty : nat;
  pendingTransactions : list Transaction.t;
  miningReward : Qc;
  balances : gmap (option string) Qc;
  tokens : gmap (option string) (gmap (option string) Qc);
  tokenInfo : gmap string TokenInfo;
  aliased : nat;
  emitted : list Event
}.

Inductive Outcome (A : Type) :=
| Return (a : A) (st : t)
| Throw (e : Error) (st : t).
Arguments Return {A} a st.
Arguments Throw {A} e st.

Definition set_chain (c : list Block.t) (st : t) : t :=
  {| chain := c; difficulty := difficulty st;
     pendingTransactions := pendingTransactions st; miningReward := miningReward st;
     balances := balances st; tokens := tokens st; tokenInfo := tokenInfo st;
     aliased := aliased st; emitted := emitted st |}.

Definition set_difficulty (d : nat) (st : t) : t :=
  {| chain := chain st; difficulty := d;
     pendingTransactions := pendingTransactions st; miningReward := miningReward st;
     balances := balances st; tokens := tokens st; tokenInfo := tokenInfo st;
     aliased := aliased st; emitted := emitted st |}.

Definition set_pendingTransactions (p : list Transaction.t) (st : t) : t :=
  {| chain := chain st; difficulty := difficulty st;
     pendingTransactions := p; miningReward := miningReward st;
     balances := balances st; tokens := tokens st; tokenInfo := tokenInfo st;
     aliased := aliased st; emitted := emitted st |}.

Definition set_balances (m : gmap (option string) Qc) (st : t) : t :=
  {| chain := chain st; difficulty := difficulty st;
     pendingTransactions := pendingTransactions st; miningReward := miningReward st;
     balances := m; tokens := tokens st; tokenInfo := tokenInfo st;
     aliased := aliased st; emitted := emitted st |}.

Definition set_tokens (m : gmap (option string) (gmap (option string) Qc)) (st : t) : t :=
  {| chain := chain st; difficulty := difficulty st;
     pendingTransactions := pendingTransactions st; miningReward := miningReward st;
     balances := balances st; tokens := m; tokenInfo := tokenInfo st;
     aliased := aliased st; emitted := emitted st |}.

Definition set_tokenInfo (m : gmap string TokenInfo) (st : t) : t :=
  {| chain := chain st; difficulty := difficulty st;
     pendingTransactions := pendingTransactions st; miningReward := miningReward st;
     balances := balances st; tokens := tokens st; tokenInfo := m;
     aliased := aliased st; emitted := emitted st |}.

Definition set_aliased (n : nat) (st : t) : t :=
  {| chain := chain st; difficulty := difficulty st;
     pendingTransactions := pendingTransactions st; miningReward := miningReward st;
     balances := balances st; tokens := tokens st; tokenInfo := tokenInfo st;
     aliased := n; emitted := emitted st |}.

(** [this.emit(...)] *)
Definition emit (e : Event) (st : t) : t :=
  {| chain := chain st; difficulty := difficulty st;
     pendingTransactions := pendingTransactions st; miningReward := miningReward st;
     balances := balances st; tokens := tokens st; tokenInfo := tokenInfo st;
     aliased := aliased st; emitted := emitted st ++ [e] |}.

(** [this.pendingTransactions.push(tx)]: the pool grows, and so does every
    block that holds the pool array. *)
Definition push_pending (tx : Transaction.t) (st : t) : t :=
  let own := length (chain st) - aliased st in
  set_pendingTransactions (pendingTransactions st ++ [tx])
    (set_chain (take own (chain st) ++ (Block.push_transaction tx <$> drop own (chain st))) st).

(** [this.chain.push(block)] of a block built on the pool array. *)
Definition push_block (b : Block.t) (st : t) : t :=
  set_aliased (S (aliased st)) (set_chain (chain st ++ [b]) st).

(** [this.pendingTransactions = []] *)
Definition clear_pending (st : t) : t :=
  set_aliased 0 (set_pendingTransactions [] st).

(** [getLatestBlock()]: [None] is [undefined]. *)
Definition getLatestBlock (st : t) : option Block.t := last (chain st).

(** [getBalance(address)] *)
Definition getBalance (address : option string) (st : t) : Qc :=
  default (dec 0 1) (balances st !! address).

(** [getTokenBalance(address, tokenName)] *)
Definition getTokenBalance (address tokenName : option string) (st : t) : Qc :=
  let userTokens := default ∅ (tokens st !! address) in
  default (dec 0 1) (userTokens !! tokenName).

(** [addTransaction(transaction)]; the comparison is one of doubles: the
    balance, and the sum that the addition of doubles returns. *)
Definition addTransaction (transaction : Transaction.t) (st : t) : Outcome unit :=
  if negb (truthy (Transaction.from transaction)) || negb (truthy (Transaction.to transaction))
  then Throw MissingParties st
  else if negb (Transaction.isValid transaction) then Throw InvalidSignature st
  else if String.eqb (Transaction.type transaction) "transfer"
          && Qc_ltb (Double.round (getBalance (Transaction.from transaction) st))
               (Double.add (Transaction.amount transaction) (Transaction.fee transaction))
  then Throw InsufficientFunds st
  else Return tt (emit (transactionAdded transaction) (push_pending transaction st)).

(** [createToken(name, symbol, totalSupply, creator)]; [now] is
    [Date.now()]. *)
Definition createToken (name symbol : string) (totalSupply : Qc)
    (creator : option string) (now : Z) (st : t) : Outcome unit :=
  match tokenInfo st !! name with
  | Some _ => Throw TokenAlreadyExists st
  | None =>
      let info := {| name := name; symbol := symbol; totalSupply := totalSupply;
                     creator := creator; createdAt := now |} in
      let st1 := set_tokenInfo (<[name := info]> (tokenInfo st)) st in
      let creatorTokens := default ∅ (tokens st1 !! creator) in
      Return tt (set_tokens (<[creator := <[Some name := totalSupply]> creatorTokens]> (tokens st1)) st1)
  end.

(** [mintToken(tokenName, to, amount)] *)
Definition mintToken (tokenName to : option string) (amount : Qc) (st : t) : t :=
  let userTokens := default ∅ (tokens st !! to) in
  let currentAmount := default (dec 0 1) (userTokens !! tokenName) in
  set_tokens (<[to := <[tokenName := (currentAmount + amount)%Qc]> userTokens]> (tokens st)) st.

(** [transferToken(tokenName, from, to, amount)].  [fromTokens] and
    [toTokens] are the same [Map] object when [from] and [to] are the same
    key and that key has an entry; then the second [set] reads what the
    first one wrote.  Otherwise they are distinct objects. *)
Definition transferToken (tokenName from to : option string) (amount : Qc) (st : t)
    : Outcome unit :=
  let fromTokens := default ∅ (tokens st !! from) in
  let fromAmount := default (dec 0 1) (fromTokens !! tokenName) in
  if Qc_ltb fromAmount amount then Throw InsufficientTokenBalance st
  else
    let fromTokens' := <[tokenName := (fromAmount - amount)%Qc]> fromTokens in
    let toTokens :=
      match tokens st !! to with
      | Some m => if decide (from = to) then fromTokens' else m
      | None => ∅
      end in
    let toTokens' :=
      <[tokenName := (default (dec 0 1) (toTokens !! tokenName) + amount)%Qc]> toTokens in
    Return tt (set_tokens (<[to := toTokens']> (<[from := fromTokens']> (tokens st))) st).

(** The body of the [forEach] of [updateBalances]: the [switch] on the
    type of one transaction.  A type with no [case] changes nothing. *)
Definition applyTransaction (transaction : Transaction.t) (st : t) : Outcome unit :=
  let type := Transaction.type transaction in
  if String.eqb type "transfer" then
    let fromBalance := default (dec 0 1) (balances st !! Transaction.from transaction) in
    let toBalance := default (dec 0 1) (balances st !! Transaction.to transaction) in
    Return tt
      (set_balances
         (<[Transaction.to transaction := (toBalance + Transaction.amount transaction)%Qc]>
            (<[Transaction.from transaction :=
                 (fromBalance - Transaction.amount transaction - Transaction.fee transaction)%Qc]>
               (balances st))) st)
  else if String.eqb type "mining_reward" then
    let minerBalance := default (dec 0 1) (balances st !! Transaction.to transaction) in
    Return tt
      (set_balances
         (<[Transaction.to transaction := (minerBalance + Transaction.amount transaction)%Qc]>
            (balances st)) st)
  else if String.eqb type "mint_token" then
    Return tt (mintToken (Transaction.tokenName (Transaction.data transaction))
                 (Transaction.to transaction) (Transaction.amount transaction) st)
  else if String.eqb type "transfer_token" then
    transferToken (Transaction.tokenName (Transaction.data transaction))
      (Transaction.from transaction) (Transaction.to transaction)
      (Transaction.amount transaction) st
  else Return tt st.

(** [block.transactions.forEach(...)]: in order, stopped by the first
    [throw]. *)
Fixpoint forEach_transaction (txs : list Transaction.t) (st : t) : Outcome unit :=
  match txs with
  | [] => Return tt st
  | tx :: rest =>
      match applyTransaction tx st with
      | Return _ st' => forEach_transaction rest st'
      | Throw e st' => Throw e st'
      end
  end.

(** [updateBalances(block)] *)
Definition updateBalances (block : Block.t) (st : t) : Outcome unit :=
  forEach_transaction (Block.transactions block) st.

(** [isChainValid()]: the loop from index 1, [previousBlock] being the
    block before [currentBlock]. *)
Section WithCrypto.
Context `{Crypto}.

Fixpoint isChainValid_from (previousBlock : Block.t) (rest : list Block.t) : bool :=
  match rest with
  | [] => true
  | currentBlock :: rest' =>
      if negb (Block.hasValidTransactions currentBlock) then false
      else if negb (String.eqb (Block.hash currentBlock) (Block.calculateHash currentBlock))
      then false
      else if negb (String.eqb (Block.previousHash currentBlock) (Block.hash previousBlock))
      then false
      else isChainValid_from currentBlock rest'
  end.

Definition isChainValid (st : t) : bool :=
  match chain st with
  | [] => true
  | genesis :: rest => isChainValid_from genesis rest
  end.

(** [createGenesisBlock()] *)
Definition createGenesisBlock (now : Z) : Block.t :=
  let genesisBlock := Block.new now [] "0" in
  Block.set_hash (Block.calculateHash genesisBlock) genesisBlock.

(** [new Blockchain()] *)
Definition new (now : Z) : t :=
  {| chain := [createGenesisBlock now]; difficulty := 4;
     pendingTransactions := []; miningReward := dec 10 1;
     balances := ∅; tokens := ∅; tokenInfo := ∅;
     aliased := 0; emitted := [] |}.

(** What [minePendingTransactions] reads from its environment: the
    identifier and the creation time of the reward transaction, and the
    creation time of the block. *)
Record MineEnv := { reward_uuid : string; reward_now : Z; block_now : Z }.

(** [minePendingTransactions(miningRewardAddress)]; [None] when the
    proof-of-work loop exhausts [fuel]. *)
Definition minePendingTransactions (fuel : nat) (env : MineEnv)
    (miningRewardAddress : option string) (st : t) : option (Outcome Block.t) :=
  let rewardTransaction :=
    Transaction.new (reward_uuid env) (reward_now env) None miningRewardAddress
      (miningReward st) "mining_reward" {| Transaction.tokenName := None |} None in
  let st1 := push_pending rewardTransaction st in
  match getLatestBlock st1 with
  | None => Some (Throw TypeError st1)
  | Some latest =>
      let block := Block.new (block_now env) (pendingTransactions st1) (Block.hash latest) in
      match Block.mineBlock fuel (difficulty st1) miningRewardAddress block with
      | None => None
      | Some block' =>
          let st2 := push_block block' st1 in
          match updateBalances block' st2 with
          | Throw e st3 => Some (Throw e st3)
          | Return _ st3 => Some (Return block' (emit (blockMined block') (clear_pending st3)))
          end
      end
  end.

End WithCrypto.

(** [this.blockchain.difficulty = difficulty], as [Miner.setDifficulty] and
    the console menu of the simulator do. *)
Definition setDifficulty (d : nat) (st : t) : t := set_difficulty d st.

(** The sum of [balances] over all addresses. *)
Definition totalBalance (st : t) : Qc :=
  map_fold (λ _ v acc, (v + acc)%Qc) (dec 0 1) (balances st).

(** The sum over all addresses of the balance of one token. *)
Definition circulating (tokenName : option string) (st : t) : Qc :=
  map_fold (λ _ (userTokens : gmap (option string) Qc) acc,
              (default (dec 0 1) (userTokens !! tokenName) + acc)%Qc)
           (dec 0 1) (tokens st).

(** ** The queries of [Blockchain] *)

(** The object that [getStats()] returns. *)
Module Stats.
Record t := {
  totalBlocks : nat;
  totalTransactions : nat;
  totalAddresses : nat;
  totalTokens : nat;
  difficulty : nat;
  pendingTransactions : nat
}.
End Stats.

(** [getStats()] *)
Definition getStats (st : t) : Stats.t :=
  {| Stats.totalBlocks := length (chain st);
     Stats.totalTransactions :=
       foldl (λ sum block, sum + length (Block.transactions block)) 0 (chain st);
     Stats.totalAddresses := size (balances st);
     Stats.totalTokens := size (tokenInfo st);
     Stats.difficulty := difficulty st;
     Stats.pendingTransactions := length (pendingTransactions st) |}.

(** The object that [searchTransaction] returns:
    [{ transaction, block: { hash, timestamp, height } }]. *)
Module Found.
Record block := { hash : string; timestamp : Z; height : nat }.
Record t := { transaction : Transaction.t; block_of : block }.
End Found.

(** The [for ... of] loop of [searchTransaction] over the blocks from index
    [height] on.  Every block of the chain is an object of its own, so
    [this.chain.indexOf(block)] is the index that the loop has reached. *)
Fixpoint searchTransaction_from (height : nat) (blocks : list Block.t) (txId : string)
    : option Found.t :=
  match blocks with
  | [] => None
  | block :: rest =>
      match List.find (λ tx, String.eqb (Transaction.id tx) txId) (Block.transactions block) with
      | Some transaction =>
          Some {| Found.transaction := transaction;
                  Found.block_of := {| Found.hash := Block.hash block;
                                       Found.timestamp := Block.timestamp block;
                                       Found.height := height |} |}
      | None => searchTransaction_from (S height) rest txId
      end
  end.

(** [searchTransaction(txId)]; [None] is [null]. *)
Definition searchTransaction (txId : string) (st : t) : option Found.t :=
  searchTransaction_from 0 (chain st) txId.

(** The argument of [searchBlock]: a number, or a string. *)
Inductive HashOrHeight :=
| Height (n : Qc)
| Hash (h : string).

(** [array[n]] for a number [n] reads an element only when [n] is a
    non-negative integer. *)
Definition array_index (n : Qc) : option nat :=
  if (Qden (this n) =? 1)%positive && (0 <=? Qnum (this n))%Z
  then Some (Z.to_nat (Qnum (this n)))
  else None.

(** [searchBlock(hashOrHeight)]; [None] is [null]. *)
Definition searchBlock (hashOrHeight : HashOrHeight) (st : t) : option Block.t :=
  match hashOrHeight with
  | Height n =>
      match array_index n with
      | Some i => chain st !! i
      | None => None
      end
  | Hash h => List.find (λ block, String.eqb (Block.hash block) h) (chain st)
  end.

(** An element of the array that [getAddressTransactions] returns:
    [{ ...tx, blockHeight, blockHash, blockTimestamp }]. *)
Module Entry.
Record t := {
  tx : Transaction.t;
  blockHeight : nat;
  blockHash : string;
  blockTimestamp : Z
}.
End Entry.

(** [a === b] on addresses. *)
Definition same_address (a b : option string) : bool := bool_decide (a = b).

(** The two nested [forEach] of [getAddressTransactions], from block index
    [blockIndex] on. *)
Fixpoint collect_address_transactions (address : option string) (blockIndex : nat)
    (blocks : list Block.t) : list Entry.t :=
  match blocks with
  | [] => []
  | block :: rest =>
      ((λ tx, {| Entry.tx := tx; Entry.blockHeight := blockIndex;
                 Entry.blockHash := Block.hash block;
                 Entry.blockTimestamp := Block.timestamp block |})
         <$> List.filter (λ tx, same_address (Transaction.from tx) address
                                || same_address (Transaction.to tx) address)
               (Block.transactions block))
      ++ collect_address_transactions address (S blockIndex) rest
  end.

(** [sort((a, b) => b.timestamp - a.timestamp)]: greater timestamps first;
    [Array.prototype.sort] is stable, so entries with the same timestamp
    keep the order they had.  The entries are inserted from the last one
    to the first, each before the first entry whose timestamp is not
    greater than its own. *)
Fixpoint insert_newest_first (e : Entry.t) (sorted : list Entry.t) : list Entry.t :=
  match sorted with
  | [] => [e]
  | e' :: rest =>
      if (Transaction.timestamp (Entry.tx e') <=? Transaction.timestamp (Entry.tx e))%Z
      then e :: e' :: rest
      else e' :: insert_newest_first e rest
  end.

Definition sort_newest_first (l : list Entry.t) : list Entry.t :=
  foldr insert_newest_first [] l.

(** [getAddressTransactions(address)] *)
Definition getAddressTransactions (address : option string) (st : t) : list Entry.t :=
  sort_newest_first (collect_address_transactions address 0 (chain st)).

End Blockchain.

(** ** Miner

    The class [Miner] of the miner module (the second unnamed source file).
    A miner holds a reference to the blockchain: its methods take the state
    of the blockchain and return it. *)

(** A JavaScript number that may be [Infinity], [-Infinity] or [NaN]; the
    finite ones are exact rationals. *)
Inductive JSNumber :=
| Finite (q : Qc)
| PosInfinity
| NegInfinity
| NaN.

(** [a / b] on finite numbers; a divisor that is zero is [+0], as every
    zero that the miner divides by is (a difference of two clock readings,
    divided by 1000). *)
Definition js_div (a b : Qc) : JSNumber :=
  if decide (b = 0)%Qc then
    if decide (a = 0)%Qc then NaN
    else if decide (0 < a)%Qc then PosInfinity else NegInfinity
  else Finite (a / b)%Qc.

(** [x + y] *)
Definition js_add (x y : JSNumber) : JSNumber :=
  match x, y with
  | NaN, _ | _, NaN => NaN
  | PosInfinity, NegInfinity | NegInfinity, PosInfinity => NaN
  | PosInfinity, _ | _, PosInfinity => PosInfinity
  | NegInfinity, _ | _, NegInfinity => NegInfinity
  | Finite a, Finite b => Finite (a + b)%Qc
  end.

Module Miner.

(** [this.stats] *)
Record Stats := {
  blocksMinedTotal : nat;
  totalReward : Qc;
  totalHashrate : JSNumber;
  startTime : option Z;
  lastBlockTime : option Z
}.

(** What the miner emits: ['started'], ['stopped'],
    ['newTransactionDetected'], and ['blockMined'] with
    [{ block, miner, miningTime, reward }]. *)
Inductive Event :=
| started
| stopped
| newTransactionDetected
| blockMined (block : Block.t) (miner : string) (miningTime : Z) (reward : Qc).

Record t := {
  minerAddress : option string;
  name : string;
  isRunning : bool;
  stats : Stats;
  emitted : list Event
}.

(** [new Miner(blockchain, minerAddress, name)] *)
Definition new (minerAddress : option string) (name : string) : t :=
  {| minerAddress := minerAddress; name := name; isRunning := false;
     stats := {| blocksMinedTotal := 0; totalReward := dec 0 1;
                 totalHashrate := Finite (dec 0 1);
                 startTime := None; lastBlockTime := None |};
     emitted := [] |}.

Definition set_isRunning (r : bool) (m : t) : t :=
  {| minerAddress := minerAddress m; name := name m; isRunning := r;
     stats := stats m; emitted := emitted m |}.

Definition set_stats (s : Stats) (m : t) : t :=
  {| minerAddress := minerAddress m; name := name m; isRunning := isRunning m;
     stats := s; emitted := emitted m |}.

(** [this.emit(...)] *)
Definition emit (e : Event) (m : t) : t :=
  {| minerAddress := minerAddress m; name := name m; isRunning := isRunning m;
     stats := stats m; emitted := emitted m ++ [e] |}.

(** The listener that the constructor registers on the blockchain for
    ['transactionAdded']. *)
Definition on_transactionAdded (m : t) (st : Blockchain.t) : t :=
  if isRunning m && (0 <? length (Blockchain.pendingTransactions st))
  then emit newTransactionDetected m
  else m.

(** [updateStats(block, miningTime)] *)
Definition updateStats (block : Block.t) (miningTime : Z) (m : t) : t :=
  let attempts := Q2Qc (inject_Z (Z.of_N (Block.nonce block))) in
  let hashrate := js_div attempts (Q2Qc (inject_Z miningTime) / dec 1000 1)%Qc in
  set_stats
    {| blocksMinedTotal := S (blocksMinedTotal (stats m));
       totalReward := (totalReward (stats m) + Block.reward block)%Qc;
       totalHashrate := js_add (totalHashrate (stats m)) hashrate;
       startTime := startTime (stats m);
       lastBlockTime := Some miningTime |} m.

(** [stop()]; what [printStats] writes to the console is not kept. *)
Definition stop (m : t) : t :=
  if negb (isRunning m) then m
  else emit stopped (set_isRunning false m).

(** How one pass of the loop of [miningLoop] ends: the [while] test failed,
    or the pass reached [await this.sleep(ms)]. *)
Inductive Pass :=
| Exit
| Sleep (ms : Z).

Section WithCrypto.
Context `{Crypto}.

(** One pass of [miningLoop], from the test of the [while] to the next
    [await]; between two [await]s nothing else runs.  [startTime] and
    [endTime] are the two readings of [Date.now()] around the mining, and
    [None] means that the proof-of-work loop exhausted [fuel]. *)
Definition miningLoop_pass (fuel : nat) (startTime endTime : Z) (env : Blockchain.MineEnv)
    (m : t) (st : Blockchain.t) : option (t * Blockchain.t * Pass) :=
  if negb (isRunning m) then Some (m, st, Exit)
  else if length (Blockchain.pendingTransactions st) =? 0 then Some (m, st, Sleep 1000)
  else
    match Blockchain.minePendingTransactions fuel env (minerAddress m) st with
    | None => None
    | Some (Blockchain.Return block st') =>
        let miningTime := (endTime - startTime)%Z in
        let m1 := updateStats block miningTime m in
        Some (emit (blockMined block (name m) miningTime (Block.reward block)) m1,
              st', Sleep 100)
    | Some (Blockchain.Throw _ st') => Some (m, st', Sleep 5000)
    end.

(** [start()]: the call of [miningLoop] runs the first pass before [start]
    returns.  [now] is the reading of [Date.now()] for [stats.startTime]. *)
Definition start (fuel : nat) (now startTime endTime : Z) (env : Blockchain.MineEnv)
    (m : t) (st : Blockchain.t) : option (t * Blockchain.t) :=
  if isRunning m then Some (m, st)
  else
    let m1 := set_isRunning true m in
    let m2 := set_stats {| blocksMinedTotal := blocksMinedTotal (stats m1);
                           totalReward := totalReward (stats m1);
                           totalHashrate := totalHashrate (stats m1);
                           startTime := Some now;
                           lastBlockTime := lastBlockTime (stats m1) |} m1 in
    match miningLoop_pass fuel startTime endTime env (emit started m2) st with
    | Some (m3, st', _) => Some (m3, st')
    | None => None
    end.

End WithCrypto.

(** [getBalance()] *)
Definition getBalance (m : t) (st : Blockchain.t) : Qc :=
  Blockchain.getBalance (minerAddress m) st.

(** [getTokenBalance(tokenName)] *)
Definition getTokenBalance (tokenName : option string) (m : t) (st : Blockchain.t) : Qc :=
  Blockchain.getTokenBalance (minerAddress m) tokenName st.

End Miner.

(** ** Tree traversals

    The two functions of [tree.js].  A node is an object with [value],
    [left] and [right]; an absent child is [null].  The objects form a
    tree: no node is reached twice. *)

Module Tree.

Section WithValue.
Context {V : Type}.

Inductive node :=
| null
| Node (value : V) (left right : node).

(** Only nodes that pass [if (node.left)] or [if (node.right)] (or the
    [if (!root)] at the start) enter the stack or the queue: an entry is a
    node that is not [null], given by its three fields. *)
Definition entry : Type := V * node * node.

(** [if (child) array.push(child)]: the entries that the push adds. *)
Definition pushed (child : node) : list entry :=
  match child with
  | null => []
  | Node value l r => [(value, l, r)]
  end.

(** The [while] loop of [preOrderTraversal].  [stack] lists the array from
    its last element, the one that [pop] takes, to its first; [log] is what
    [console.log] has written.  One unit of fuel per iteration. *)
Fixpoint preOrder_loop (fuel : nat) (stack : list entry) (log : list V)
    : option (list entry * list V) :=
  match stack with
  | [] => Some (stack, log)
  | (value, l, r) :: rest =>
      match fuel with
      | O => None
      | S fuel' => preOrder_loop fuel' (pushed l ++ pushed r ++ rest) (log ++ [value])
      end
  end.

(** [preOrderTraversal(root)]: the value returned ([None] is [undefined])
    and the lines written to the console. *)
Definition preOrderTraversal (fuel : nat) (root : node)
    : option (option (list entry) * list V) :=
  match root with
  | null => Some (None, [])
  | Node value l r =>
      match preOrder_loop fuel [(value, l, r)] [] with
      | Some (stack, log) => Some (Some stack, log)
      | None => None
      end
  end.

(** The [while] loop of [levelOrderTraversal]: [shift] takes the first
    element of [queue], the pushes add at its end. *)
Fixpoint levelOrder_loop (fuel : nat) (queue : list entry) (result : list V)
    : option (list V) :=
  match queue with
  | [] => Some result
  | (value, l, r) :: rest =>
      match fuel with
      | O => None
      | S fuel' => levelOrder_loop fuel' (rest ++ pushed l ++ pushed r) (result ++ [value])
      end
  end.

(** [levelOrderTraversal(root)]; the inner [None] is [undefined]. *)
Definition levelOrderTraversal (fuel : nat) (root : node) : option (option (list V)) :=
  match root with
  | null => Some None
  | Node value l r =>
      match levelOrder_loop fuel [(value, l, r)] [] with
      | Some result => Some (Some result)
      | None => None
      end
  end.

(** The number of nodes, the height, the values in preorder, and the
    values at one depth from left to right. *)
Fixpoint size (n : node) : nat :=
  match n with
  | null => 0
  | Node _ l r => S (size l + size r)
  end.

Fixpoint height (n : node) : nat :=
  match n with
  | null => 0
  | Node _ l r => S (Nat.max (height l) (height r))
  end.

Fixpoint preorder (n : node) : list V :=
  match n with
  | null => []
  | Node value l r => value :: preorder l ++ preorder r
  end.

Fixpoint at_depth (d : nat) (n : node) : list V :=
  match n, d with
  | null, _ => []
  | Node value _ _, O => [value]
  | Node _ l r, S d' => at_depth d' l ++ at_depth d' r
  end.

(** The node that an entry stands for. *)
Definition of_entry (e : entry) : node :=
  match e with (value, l, r) => Node value l r end.

(** Over the entries of a stack or a queue: the number of nodes, the values
    of the entries themselves, their children, and the values at one
    depth. *)
Definition forest_size (q : list entry) : nat := sum_list (size ∘ of_entry <$> q).

Definition roots (q : list entry) : list V := (λ e, e.1.1) <$> q.

Definition children (q : list entry) : list entry :=
  flat_map (λ e, pushed e.1.2 ++ pushed e.2) q.

Definition forest_at_depth (d : nat) (q : list entry) : list V :=
  flat_map (at_depth d ∘ of_entry) q.

End WithValue.

Arguments node V : clear implicits.
Arguments entry V : clear implicits.

End Tree.

(** * The vocabulary of the statements *)

Section Vocabulary.
Context `{Crypto}.
Import Blockchain.

(** The test of the [while] loop, negated: the hash meets the target. *)
Definition meetsTarget (difficulty : nat) (h : string) : bool :=
  String.eqb (substring 0 difficulty h) (Block.target difficulty).

(** One more iteration of the loop: the next nonce and its digest. *)
Definition next_candidate (b : Block.t) : Block.t :=
  let b1 := Block.set_nonce (Block.nonce b + 1) b in
  Block.set_hash (Block.calculateHash b1) b1.

(** The block reached after [k] iterations. *)
Fixpoint iterate_candidate (k : nat) (b : Block.t) : Block.t :=
  match k with
  | O => b
  | S k' => iterate_candidate k' (next_candidate b)
  end.

(** The fields that [updateBalances] never writes. *)
Definition shell (st : t) :=
  (chain st, difficulty st, pendingTransactions st, miningReward st,
   tokenInfo st, aliased st, emitted st).

(** The reward transaction that [minePendingTransactions] builds. *)
Definition rewardTransaction (env : MineEnv) (addr : option string) (st : t) : Transaction.t :=
  Transaction.new (reward_uuid env) (reward_now env) None addr (miningReward st)
    "mining_reward" {| Transaction.tokenName := None |} None.

(** The state that [addTransaction] returns when it accepts. *)
Definition accepted (tx : Transaction.t) (st : t) : t :=
  emit (transactionAdded tx) (push_pending tx st).

(** One call that returns normally. *)
Inductive step : t → t → Prop :=
| step_addTransaction tx st st' :
    addTransaction tx st = Return tt st' → step st st'
| step_minePendingTransactions fuel env addr st b st' :
    minePendingTransactions fuel env addr st = Some (Return b st') → step st st'
| step_createToken name symbol totalSupply creator now st st' :
    createToken name symbol totalSupply creator now st = Return tt st' → step st st'.

(** The states that a freshly constructed chain reaches by calls that
    return normally. *)
Definition reachable (st : t) : Prop := ∃ now, rtc step (new now) st.

(** What every such state satisfies. *)
Record invariant (st : t) : Prop := {
  inv_not_aliased : aliased st = 0;
  inv_pending_valid : forallb Transaction.isValid (pendingTransactions st) = true;
  inv_chain_valid : isChainValid st = true;
  inv_genesis : ∃ now rest, chain st = createGenesisBlock now :: rest;
  inv_miningReward : miningReward st = dec 10 1
}.

(** Σ fee(tx) over the transactions of a block, as a sum over the list. *)
Definition sum_fees (txs : list Transaction.t) : Qc :=
  foldr (λ tx acc, (Transaction.fee tx + acc)%Qc) (dec 0 1) txs.

End Vocabulary.

Section SumOfValues.
Context {K : Type} `{Countable K} {V : Type} (f : V → Qc).

(** The sum of [f] over the values of a map. *)
Definition sum_values (m : gmap K V) : Qc :=
  map_fold (λ _ v acc, (f v + acc)%Qc) (dec 0 1) m.

End SumOfValues.

(** ** A small instance of the library operations, to run the ledger *)

Module Demo.

Fixpoint last_char (s : string) : option ascii :=
  match s with
  | EmptyString => None
  | String c EmptyString => Some c
  | String _ s' => last_char s'
  end.

(** A digest that looks at the last character of its input only, which is
    the last digit of the nonce when a block is hashed: nonce 3 is the
    first to give four leading zeros, nonce 1 the first to give two. *)
Definition digest (s : string) : string :=
  match last_char s with
  | Some "3"%char => "0000a3f1"
  | Some "1"%char => "00c4e2b7"
  | _ => "9f86d081"
  end.

Definition crypto : Crypto :=
  {| sha256_hex := digest;
     JSON_stringify := λ txs, String.concat "," (Transaction.id <$> txs) |}.

(** A digest that also depends on the length of its input, so that it
    changes when a transaction is added to the content of a block. *)
Definition digest_of_content (s : string) : string :=
  match last_char s with
  | Some "3"%char => "0000"
  | _ => "9f86"
  end +:+ pretty (String.length s).

Definition content_crypto : Crypto :=
  {| sha256_hex := digest_of_content;
     JSON_stringify := λ txs, String.concat "," (Transaction.id <$> txs) |}.

Definition env (uuid : string) (now : Z) : Blockchain.MineEnv :=
  {| Blockchain.reward_uuid := uuid; Blockchain.reward_now := now;
     Blockchain.block_now := now |}.

(** The state in a [Return], or [fallback]. *)
Definition state_of {A} (fallback : Blockchain.t) (r : Blockchain.Outcome A) : Blockchain.t :=
  match r with
  | Blockchain.Return _ st => st
  | Blockchain.Throw _ _ => fallback
  end.

Definition mined_state (fallback : Blockchain.t) (r : option (Blockchain.Outcome Block.t))
    : Blockchain.t :=
  match r with
  | Some (Blockchain.Return _ st) => st
  | _ => fallback
  end.

Definition fresh : Blockchain.t := @Blockchain.new crypto 1000.

(** alice mines an empty pool *)
Definition after_first_block : Blockchain.t :=
  Eval vm_compute in
    mined_state fresh
      (@Blockchain.minePendingTransactions crypto 10 (env "r1" 2000) (Some "alice") fresh).

(** a signed transfer of [amount] from [from] to [to] *)
Definition transfer (uuid : string) (from to : string) (amount : Qc) : Transaction.t :=
  Transaction.sign "3045ab"
    (Transaction.new uuid 3000 (Some from) (Some to) amount "transfer"
       {| Transaction.tokenName := None |} None).

End Demo.

(** ** The transactions and states of two scenarios *)

Module Scenario.

(** A mint of 5 Gold to bob; the sender is a non-empty string, as
    addTransaction asks of every transaction. *)
Definition gold_mint : Transaction.t :=
  Transaction.new "m1" 3000 (Some "faucet") (Some "bob") (dec 5 1) "mint_token"
    {| Transaction.tokenName := Some "Gold" |} None.

(** Two signed transfers of 9 from alice to bob. *)
Definition spend1 : Transaction.t := Demo.transfer "t1" "alice" "bob" (dec 9 1).
Definition spend2 : Transaction.t := Demo.transfer "t2" "alice" "bob" (dec 9 1).

Section WithCrypto.
Context `{Crypto}.

(** The fresh chain after createToken('Gold', 'GLD', 1000, alice). *)
Definition with_gold (now tnow : Z) : Blockchain.t :=
  Demo.state_of (Blockchain.new now)
    (Blockchain.createToken "Gold" "GLD" (dec 1000 1) (Some "alice") tnow
       (Blockchain.new now)).

End WithCrypto.

End Scenario.

(** ** Transactions and states on which the claims are run *)

Module Runs.
Import Blockchain.

(** An unsigned transfer of 50 from alice, who holds nothing. *)
Definition unsigned_transfer : Transaction.t :=
  Transaction.new "u1" 3000 (Some "alice") (Some "bob") (dec 50 1) "transfer"
    {| Transaction.tokenName := None |} None.

(** A signed transfer of 50 from alice. *)
Definition overspend : Transaction.t := Demo.transfer "o1" "alice" "bob" (dec 50 1).

(** A mint without sender, as the simulator and the visualizer build it:
    [new Transaction(null, to, amount, 'mint_token', { tokenName })]. *)
Definition system_mint : Transaction.t :=
  Transaction.new "s1" 3000 None (Some "bob") (dec 25 1) "mint_token"
    {| Transaction.tokenName := Some "DemoToken" |} None.

(** A mint of 50 Gold to carol, and a signed transfer of 500 Gold from
    alice. *)
Definition carol_mint : Transaction.t :=
  Transaction.new "m2" 3000 (Some "faucet") (Some "carol") (dec 50 1) "mint_token"
    {| Transaction.tokenName := Some "Gold" |} None.

Definition token_overdraw : Transaction.t :=
  Transaction.sign "3045ab"
    (Transaction.new "k1" 3000 (Some "alice") (Some "bob") (dec 500 1) "transfer_token"
       {| Transaction.tokenName := Some "Gold" |} None).

(** Gold created with 200 for alice; the pool holds the mint and the
    transfer of 500. *)
Definition gold_200 : t :=
  Eval vm_compute in
    Demo.state_of Demo.fresh
      (createToken "Gold" "GLD" (dec 200 1) (Some "alice") 1500 Demo.fresh).

Definition overdrawn_pool : t :=
  Eval vm_compute in accepted token_overdraw (accepted carol_mint gold_200).

Definition after_carol_mint : t :=
  Eval vm_compute in
    Demo.state_of overdrawn_pool (forEach_transaction [carol_mint] overdrawn_pool).

(** A signed transfer of 5 from alice to alice, pending on the chain where
    alice holds the reward of the first block. *)
Definition self_transfer : Transaction.t := Demo.transfer "t5" "alice" "alice" (dec 5 1).

Definition self_transfer_pool : t :=
  Eval vm_compute in accepted self_transfer Demo.after_first_block.

End Runs.

(** ** More vocabulary: links of the chain, blocked pools, passes of a miner *)

Section MoreVocabulary.
Context `{Crypto}.
Import Blockchain.

(** The state that a call leaves, whether it returned or threw. *)
Definition state_after {A} (r : Outcome A) : t :=
  match r with
  | Return _ st' => st'
  | Throw _ st' => st'
  end.

(** One call of a method that writes to the blockchain, whatever its
    arguments and whether it returns or throws: the methods of
    [Blockchain], and [Miner.setDifficulty]. *)
Inductive call : t → t → Prop :=
| call_addTransaction tx st : call st (state_after (addTransaction tx st))
| call_minePendingTransactions fuel env addr st r :
    minePendingTransactions fuel env addr st = Some r → call st (state_after r)
| call_updateBalances block st : call st (state_after (updateBalances block st))
| call_createToken name symbol totalSupply creator now st :
    call st (state_after (createToken name symbol totalSupply creator now st))
| call_mintToken tokenName to amount st : call st (mintToken tokenName to amount st)
| call_transferToken tokenName from to amount st :
    call st (state_after (transferToken tokenName from to amount st))
| call_setDifficulty d st : call st (setDifficulty d st).

(** The three tests that the loop of isChainValid makes on a block and the
    block before it. *)
Definition linked (previousBlock currentBlock : Block.t) : Prop :=
  Block.hasValidTransactions currentBlock = true
  ∧ Block.hash currentBlock = Block.calculateHash currentBlock
  ∧ Block.previousHash currentBlock = Block.hash previousBlock.

(** The timestamp that the comparator of the sort reads. *)
Definition entry_time (e : Entry.t) : Z := Transaction.timestamp (Entry.tx e).

(** The chain has a block, and the first pending transaction is a token
    transfer that the sender's token balance does not cover. *)
Definition stuck (st : t) : Prop :=
  chain st ≠ []
  ∧ ∃ tx post,
      pendingTransactions st = tx :: post
      ∧ Transaction.type tx = "transfer_token"
      ∧ (getTokenBalance (Transaction.from tx) (Transaction.tokenName (Transaction.data tx)) st
         < Transaction.amount tx)%Qc.

(** Passes of the loop of a miner, one after the other, each of which
    reached its [await]. *)
Inductive miner_passes : nat → Miner.t → t → Miner.t → t → Prop :=
| miner_passes_0 m st : miner_passes 0 m st m st
| miner_passes_S n fuel startTime endTime env m st m1 st1 ms m2 st2 :
    Miner.miningLoop_pass fuel startTime endTime env m st = Some (m1, st1, Miner.Sleep ms) →
    miner_passes n m1 st1 m2 st2 →
    miner_passes (S n) m st m2 st2.

End MoreVocabulary.

(** ** More states, a miner and a tree to run the properties on *)

Module Cases.
Import Blockchain.

(** One signed transfer of 9 from alice to bob is pending on the chain
    where alice holds the reward of the first block. *)
Definition one_transfer_pool : t :=
  Eval vm_compute in accepted Scenario.spend1 Demo.after_first_block.

(** Gold created with 200 for alice; the pool holds the transfer of 500
    Gold only. *)
Definition blocked_pool : t :=
  Eval vm_compute in accepted Runs.token_overdraw Runs.gold_200.

(** What the commit that dave tries on the pool of the mint and the
    transfer of 500 Gold leaves when it throws. *)
Definition after_failed_commit : t :=
  Eval vm_compute in
    match @minePendingTransactions Demo.crypto 10 (Demo.env "r2" 4000) (Some "dave")
            Runs.overdrawn_pool with
    | Some r => state_after r
    | None => Runs.overdrawn_pool
    end.

(** alice holds 7.999, and a signed transfer of 7.998 from alice to bob,
    whose fee is 0.001. *)
Definition holds_7999 : t :=
  Eval vm_compute in set_balances (<[Some "alice" := dec 7999 1000]> ∅) Demo.fresh.

Definition spend_7998 : Transaction.t := Demo.transfer "t9" "alice" "bob" (dec 7998 1000).

(** A running miner for carol. *)
Definition carol : Miner.t := Miner.set_isRunning true (Miner.new (Some "carol") "Carol").

(** A block built on the hash of the genesis block, at nonce 3. *)
Definition at_nonce_3 : Block.t := Block.set_nonce 3 (@Block.new Demo.crypto 2000 [] "9f86d081").

(** A tree of five nodes on three levels. *)
Definition small_tree : Tree.node nat :=
  Tree.Node 1 (Tree.Node 2 (Tree.Node 4 Tree.null Tree.null) Tree.null)
              (Tree.Node 3 Tree.null (Tree.Node 5 Tree.null Tree.null)).

End Cases.

(** * Properties *)

(** Case analysis on every test of a conditional in the goal. *)
Ltac case_tests :=
  repeat match goal with
         | |- context [if ?c then _ else _] => destruct c
         end.

(** ** Numbers *)

Lemma Qc_ltb_lt (x y : Qc) : Qc_ltb x y = true ↔ (x < y)%Qc.
Proof. unfold Qc_ltb. apply bool_decide_eq_true. Qed.

(** 0.1 + 0.2 is 0.30000000000000004 in doubles, which is greater than 0.3;
    10 and 0.5 are doubles, 0.1 is none; the least double is [2^-1074], and
    half of it is rounded to 0, the even neighbour. *)
Example Double_round_examples :
  Double.add (dec 1 10) (dec 2 10) = Q2Qc (1351079888211149 # 4503599627370496)
  ∧ (Double.round (dec 3 10) < Double.add (dec 1 10) (dec 2 10))%Qc
  ∧ Double.representable (dec 10 1)
  ∧ Double.representable (dec 5 10)
  ∧ ¬ Double.representable (dec 1 10)
  ∧ Double.representable (Q2Qc (1 # 2 ^ 1074))
  ∧ Double.round (Q2Qc (1 # 2 ^ 1075)) = dec 0 1
  ∧ Double.round (Q2Qc (3 # 2 ^ 1075)) = Q2Qc (2 # 2 ^ 1074).
Proof.
  split; [apply Qc_is_canon; vm_compute; reflexivity|].
  split; [vm_compute; reflexivity|].
  split; [apply Qc_is_canon; vm_compute; reflexivity|].
  split; [apply Qc_is_canon; vm_compute; reflexivity|].
  split; [intros Heq; apply (f_equal (λ q : Qc, Qnum q)) in Heq; vm_compute in Heq;
          discriminate|].
  split; [apply Qc_is_canon; vm_compute; reflexivity|].
  split; apply Qc_is_canon; vm_compute; reflexivity.
Qed.

(** A difference that is no double: 0.9 - 0.2 is rounded, and adding 0.2
    back gives 0.8999999999999999, the double below 0.9. *)
Example Double_difference_rounded :
  ¬ Double.representable (Double.round (dec 9 10) - Double.round (dec 2 10))
  ∧ Double.round (Double.round (dec 9 10) - Double.round (dec 2 10))
    = Q2Qc (3152519739159347 # 4503599627370496)
  ∧ Double.add (Q2Qc (3152519739159347 # 4503599627370496)) (dec 2 10)
    = Q2Qc (8106479329266892 # 9007199254740992)
  ∧ Double.round (dec 9 10) = Q2Qc (8106479329266893 # 9007199254740992).
Proof.
  split; [intros Heq; apply (f_equal (λ q : Qc, Qnum q)) in Heq; vm_compute in Heq;
          discriminate|].
  split; [apply Qc_is_canon; vm_compute; reflexivity|].
  split; apply Qc_is_canon; vm_compute; reflexivity.
Qed.

(** When a difference is a double, the rounded subtraction followed by
    the rounded addition of the same amount gives the first number back,
    and when a difference and a sum are doubles, the two rounded results
    have the sum of the two numbers they came from. *)
Lemma Double_exact_difference_restored (a amount : Qc) :
  Double.representable a →
  Double.representable (a - amount) →
  Double.round (Double.round (a - amount) + amount) = a.
Proof.
  unfold Double.representable. intros Ha Hdiff. rewrite Hdiff.
  by replace (a - amount + amount)%Qc with a by ring.
Qed.

Lemma Double_exact_updates_conserve (a b amount : Qc) :
  Double.representable (a - amount) →
  Double.representable (b + amount) →
  (Double.round (a - amount) + Double.round (b + amount) = a + b)%Qc.
Proof. unfold Double.representable. intros -> ->. ring. Qed.

Lemma Qc_ltb_ge (x y : Qc) : Qc_ltb x y = false ↔ (y ≤ x)%Qc.
Proof.
  unfold Qc_ltb. rewrite bool_decide_eq_false. symmetry. apply Qcle_ngt.
Qed.

Lemma Math_max_l (x y : Qc) : (x ≤ Math_max x y)%Qc.
Proof.
  unfold Math_max. destruct (decide (x < y)%Qc) as [Hlt|Hge].
  - by apply Qclt_le_weak.
  - apply Qcle_refl.
Qed.

(** ** Blocks and proof of work *)

Section BlockFacts.
Context `{Crypto}.

Lemma meetsTarget_zeros (d : nat) (h : string) :
  meetsTarget d h = true → ∀ i, i < d → String.get i h = Some "0"%char.
Proof.
  unfold meetsTarget. rewrite String.eqb_eq.
  revert h. induction d as [|d IH]; intros h Heq i Hi; [lia|].
  destruct h as [|c h']; simpl in Heq; [discriminate|].
  injection Heq as -> Hrest.
  destruct i as [|i]; simpl; [done|].
  apply IH; [done | lia].
Qed.

Lemma meetsTarget_length (d : nat) (h : string) :
  meetsTarget d h = true → d ≤ String.length h.
Proof.
  unfold meetsTarget. rewrite String.eqb_eq.
  revert h. induction d as [|d IH]; intros h Heq; [lia|].
  destruct h as [|c h']; simpl in Heq; [discriminate|].
  injection Heq as _ Hrest. simpl. apply IH in Hrest. lia.
Qed.

(** The constructor leaves a block whose hash is the digest of its
    content. *)
Lemma new_hash (ts : Z) (txs : list Transaction.t) (prev : string) :
  Block.hash (Block.new ts txs prev) = Block.calculateHash (Block.new ts txs prev).
Proof. reflexivity. Qed.

Lemma next_candidate_hash (b : Block.t) :
  Block.hash (next_candidate b) = Block.calculateHash (next_candidate b).
Proof. reflexivity. Qed.

Lemma mine_loop_unfold (fuel d : nat) (b : Block.t) :
  Block.mine_loop fuel d b =
    if meetsTarget d (Block.hash b) then Some b
    else match fuel with
         | O => None
         | S fuel' => Block.mine_loop fuel' d (next_candidate b)
         end.
Proof. destruct fuel; simpl; unfold meetsTarget; by destruct (String.eqb _ _). Qed.

(** What the loop leaves: every field but [nonce] and [hash] is as it was,
    the hash meets the target, and a hash that was the digest of the
    content on entry still is. *)
Lemma mine_loop_spec (fuel d : nat) (b b' : Block.t) :
  Block.mine_loop fuel d b = Some b' →
  meetsTarget d (Block.hash b') = true
  ∧ Block.timestamp b' = Block.timestamp b
  ∧ Block.transactions b' = Block.transactions b
  ∧ Block.previousHash b' = Block.previousHash b
  ∧ Block.miner b' = Block.miner b
  ∧ Block.reward b' = Block.reward b
  ∧ Block.difficulty b' = Block.difficulty b
  ∧ (Block.hash b = Block.calculateHash b → Block.hash b' = Block.calculateHash b').
Proof.
  revert b. induction fuel as [|fuel IH]; intros b; rewrite mine_loop_unfold;
    destruct (meetsTarget d (Block.hash b)) eqn:Hm; try discriminate.
  - intros [= <-]. done.
  - intros [= <-]. done.
  - intros Hloop. apply IH in Hloop as (? & ? & ? & ? & ? & ? & ? & Hh).
    repeat split; try done. intros _. apply Hh, next_candidate_hash.
Qed.

(** The loop ends as soon as some nonce gives a hash that meets the
    target: fuel for that many iterations is enough, and more fuel gives
    the same block. *)
Lemma mine_loop_complete (k d : nat) (b : Block.t) :
  meetsTarget d (Block.hash (iterate_candidate k b)) = true →
  ∃ b', ∀ fuel, k ≤ fuel → Block.mine_loop fuel d b = Some b'.
Proof.
  revert b. induction k as [|k IH]; intros b Hk; simpl in Hk.
  - exists b. intros fuel _. rewrite mine_loop_unfold. by rewrite Hk.
  - destruct (meetsTarget d (Block.hash b)) eqn:Hm.
    + exists b. intros fuel _. rewrite mine_loop_unfold. by rewrite Hm.
    + destruct (IH _ Hk) as [b' Hb']. exists b'. intros fuel Hfuel.
      rewrite mine_loop_unfold, Hm. destruct fuel as [|fuel]; [lia|].
      apply Hb'. lia.
Qed.

Lemma mineBlock_spec (fuel d : nat) (addr : option string) (b b' : Block.t) :
  Block.mineBlock fuel d addr b = Some b' →
  meetsTarget d (Block.hash b') = true
  ∧ Block.timestamp b' = Block.timestamp b
  ∧ Block.transactions b' = Block.transactions b
  ∧ Block.previousHash b' = Block.previousHash b
  ∧ Block.miner b' = addr
  ∧ Block.reward b' = Block.calculateReward b
  ∧ Block.difficulty b' = Block.difficulty b
  ∧ (Block.hash b = Block.calculateHash b → Block.hash b' = Block.calculateHash b').
Proof.
  unfold Block.mineBlock. destruct (Block.mine_loop fuel d b) as [b1|] eqn:Hloop; [|done].
  intros [= <-]. apply mine_loop_spec in Hloop as (? & ? & Htx & ? & ? & ? & ? & Hh).
  repeat split; try done.
  simpl. unfold Block.calculateReward. simpl. by rewrite Htx.
Qed.

End BlockFacts.

(** ** The state applier leaves everything but the two ledgers alone *)

Section ApplierFacts.
Import Blockchain.

Lemma transferToken_Throw tokenName from to amount st e st' :
  transferToken tokenName from to amount st = Throw e st' →
  e = InsufficientTokenBalance ∧ st' = st
  ∧ (getTokenBalance from tokenName st < amount)%Qc.
Proof.
  unfold transferToken, getTokenBalance.
  destruct (Qc_ltb _ amount) eqn:Hlt; [|discriminate].
  intros [= <- <-]. by apply Qc_ltb_lt in Hlt.
Qed.

Lemma transferToken_Throw_iff tokenName from to amount st :
  (∃ e st', transferToken tokenName from to amount st = Throw e st')
  ↔ (getTokenBalance from tokenName st < amount)%Qc.
Proof.
  split.
  - intros (e & st' & Hthrow). by apply transferToken_Throw in Hthrow as (_ & _ & ?).
  - intros Hlt. apply Qc_ltb_lt in Hlt. unfold getTokenBalance in Hlt.
    exists InsufficientTokenBalance, st. unfold transferToken. by rewrite Hlt.
Qed.

Lemma applyTransaction_Throw tx st e st' :
  applyTransaction tx st = Throw e st' →
  e = InsufficientTokenBalance ∧ st' = st
  ∧ Transaction.type tx = "transfer_token"
  ∧ (getTokenBalance (Transaction.from tx) (Transaction.tokenName (Transaction.data tx)) st
     < Transaction.amount tx)%Qc.
Proof.
  unfold applyTransaction.
  destruct (String.eqb (Transaction.type tx) "transfer"); [discriminate|].
  destruct (String.eqb (Transaction.type tx) "mining_reward"); [discriminate|].
  destruct (String.eqb (Transaction.type tx) "mint_token"); [discriminate|].
  destruct (String.eqb (Transaction.type tx) "transfer_token") eqn:Hty; [|discriminate].
  intros Hthrow. apply transferToken_Throw in Hthrow as (-> & -> & ?).
  by apply String.eqb_eq in Hty.
Qed.

Lemma applyTransaction_shell tx st st' :
  applyTransaction tx st = Return tt st' → shell st' = shell st.
Proof.
  unfold applyTransaction, transferToken.
  case_tests; intros [= <-]; reflexivity.
Qed.

Lemma forEach_transaction_shell txs st st' :
  forEach_transaction txs st = Return tt st' → shell st' = shell st.
Proof.
  revert st. induction txs as [|tx txs IH]; intros st; simpl.
  - by intros [= <-].
  - destruct (applyTransaction tx st) as [[] st1|] eqn:Htx; [|discriminate].
    intros Hrest. apply IH in Hrest. apply applyTransaction_shell in Htx. congruence.
Qed.

Lemma forEach_transaction_Throw_shell txs st e st' :
  forEach_transaction txs st = Throw e st' →
  e = InsufficientTokenBalance ∧ shell st' = shell st.
Proof.
  revert st. induction txs as [|tx txs IH]; intros st; simpl; [discriminate|].
  destruct (applyTransaction tx st) as [[] st1|e1 st1] eqn:Htx.
  - intros Hrest. apply IH in Hrest as [-> Hsh]. apply applyTransaction_shell in Htx.
    split; congruence.
  - intros [= <- <-]. by apply applyTransaction_Throw in Htx as (-> & -> & _).
Qed.

Lemma forEach_transaction_cons tx rest st :
  forEach_transaction (tx :: rest) st =
    match applyTransaction tx st with
    | Return _ st' => forEach_transaction rest st'
    | Throw e st' => Throw e st'
    end.
Proof. reflexivity. Qed.

Lemma forEach_transaction_app txs1 txs2 st :
  forEach_transaction (txs1 ++ txs2) st =
    match forEach_transaction txs1 st with
    | Return _ st1 => forEach_transaction txs2 st1
    | Throw e st1 => Throw e st1
    end.
Proof.
  revert st. induction txs1 as [|tx txs1 IH]; intros st; simpl; [done|].
  destruct (applyTransaction tx st) as [[] st1|]; [apply IH | done].
Qed.

(** The ledgers after a list of transactions depend on the ledgers before
    it and on nothing else of the state. *)
Lemma applyTransaction_ledgers tx st1 st2 :
  balances st1 = balances st2 → tokens st1 = tokens st2 →
  match applyTransaction tx st1, applyTransaction tx st2 with
  | Return _ st1', Return _ st2' | Throw _ st1', Throw _ st2' =>
      balances st1' = balances st2' ∧ tokens st1' = tokens st2'
  | _, _ => False
  end.
Proof.
  intros Hb Ht. unfold applyTransaction, transferToken, mintToken. rewrite Hb, Ht.
  case_tests; simpl; by rewrite ?Hb, ?Ht.
Qed.

Lemma forEach_transaction_ledgers txs st1 st2 :
  balances st1 = balances st2 → tokens st1 = tokens st2 →
  match forEach_transaction txs st1, forEach_transaction txs st2 with
  | Return _ st1', Return _ st2' | Throw _ st1', Throw _ st2' =>
      balances st1' = balances st2' ∧ tokens st1' = tokens st2'
  | _, _ => False
  end.
Proof.
  revert st1 st2. induction txs as [|tx txs IH]; intros st1 st2 Hb Ht; simpl; [done|].
  pose proof (applyTransaction_ledgers tx st1 st2 Hb Ht) as Htx.
  destruct (applyTransaction tx st1) as [[] st1'|], (applyTransaction tx st2) as [[] st2'|];
    try done.
  destruct Htx. by apply IH.
Qed.

End ApplierFacts.

(** ** Mining, step by step *)

Section MiningFacts.
Context `{Crypto}.
Import Blockchain.

Lemma rewardTransaction_isValid env addr st :
  Transaction.isValid (rewardTransaction env addr st) = true.
Proof. reflexivity. Qed.

Lemma push_pending_pendingTransactions tx st :
  pendingTransactions (push_pending tx st) = pendingTransactions st ++ [tx].
Proof. reflexivity. Qed.

Lemma push_pending_not_aliased tx st :
  aliased st = 0 → chain (push_pending tx st) = chain st.
Proof.
  intros Hal. unfold push_pending. simpl. rewrite Hal, Nat.sub_0_r.
  by rewrite take_ge, drop_all, fmap_nil, app_nil_r.
Qed.

(** A block that still holds the pool array receives what is pushed on the
    pool, under the hash it was mined with. *)
Lemma push_pending_aliased tx st rest b :
  aliased st = 1 → chain st = rest ++ [b] →
  chain (push_pending tx st) = rest ++ [Block.push_transaction tx b]
  ∧ Block.hash (Block.push_transaction tx b) = Block.hash b.
Proof.
  intros Hal Hchain. split; [|done]. unfold push_pending. simpl.
  rewrite Hal, Hchain, length_app. simpl.
  replace (length rest + 1 - 1) with (length rest) by lia.
  by rewrite take_app_length, drop_app_length.
Qed.

Lemma push_pending_length tx st :
  length (chain (push_pending tx st)) = length (chain st).
Proof.
  unfold push_pending. simpl.
  by rewrite length_app, length_fmap, <- length_app, take_drop.
Qed.

(** The steps of a call that returned a block. *)
Lemma minePendingTransactions_Return fuel env addr st b st' :
  minePendingTransactions fuel env addr st = Some (Return b st') →
  let st1 := push_pending (rewardTransaction env addr st) st in
  ∃ latest st3,
    getLatestBlock st1 = Some latest
    ∧ Block.mineBlock fuel (difficulty st) addr
        (Block.new (block_now env) (pendingTransactions st ++ [rewardTransaction env addr st])
           (Block.hash latest)) = Some b
    ∧ forEach_transaction (pendingTransactions st ++ [rewardTransaction env addr st])
        (push_block b st1) = Return tt st3
    ∧ st' = emit (blockMined b) (clear_pending st3).
Proof.
  unfold minePendingTransactions. fold (rewardTransaction env addr st).
  intros Hmine. set (st1 := push_pending (rewardTransaction env addr st) st) in *.
  destruct (getLatestBlock st1) as [latest|]; [|discriminate].
  change (pendingTransactions st1) with (pendingTransactions st ++ [rewardTransaction env addr st]) in Hmine.
  change (difficulty st1) with (difficulty st) in Hmine.
  destruct (Block.mineBlock _ _ _ _) as [block'|] eqn:Hpow; [|discriminate].
  unfold updateBalances in Hmine.
  pose proof (mineBlock_spec _ _ _ _ _ Hpow) as (_ & _ & Htxs & _).
  rewrite Htxs in Hmine. simpl in Hmine.
  destruct (forEach_transaction _ _) as [[] st3|] eqn:Hupd; [|discriminate].
  injection Hmine as <- <-. by exists latest, st3.
Qed.

(** The steps of a call that threw while the balances were updated. *)
Lemma minePendingTransactions_Throw fuel env addr st latest b e st3 :
  let st1 := push_pending (rewardTransaction env addr st) st in
  getLatestBlock st1 = Some latest →
  Block.mineBlock fuel (difficulty st) addr
    (Block.new (block_now env) (pendingTransactions st ++ [rewardTransaction env addr st])
       (Block.hash latest)) = Some b →
  forEach_transaction (pendingTransactions st ++ [rewardTransaction env addr st])
    (push_block b st1) = Throw e st3 →
  minePendingTransactions fuel env addr st = Some (Throw e st3).
Proof.
  intros st1 Hlatest Hpow Hupd.
  unfold minePendingTransactions. fold (rewardTransaction env addr st).
  change (push_pending (rewardTransaction env addr st) st) with st1.
  rewrite Hlatest.
  change (pendingTransactions st1) with (pendingTransactions st ++ [rewardTransaction env addr st]).
  change (difficulty st1) with (difficulty st).
  rewrite Hpow. unfold updateBalances.
  pose proof (mineBlock_spec _ _ _ _ _ Hpow) as (_ & _ & Htxs & _).
  rewrite Htxs. simpl. by rewrite Hupd.
Qed.

(** ** The chain stays valid *)

Lemma isChainValid_from_snoc previousBlock rest b :
  isChainValid_from previousBlock rest = true →
  Block.hasValidTransactions b = true →
  Block.hash b = Block.calculateHash b →
  Block.previousHash b = Block.hash (default previousBlock (last rest)) →
  isChainValid_from previousBlock (rest ++ [b]) = true.
Proof.
  revert previousBlock. induction rest as [|c rest IH]; intros previousBlock Hok Htx Hh Hp; simpl in *.
  - rewrite Htx, <- Hh, Hp, !String.eqb_refl. done.
  - destruct (Block.hasValidTransactions c); [|done]. simpl in *.
    destruct (String.eqb (Block.hash c) _); [|done]. simpl in *.
    destruct (String.eqb (Block.previousHash c) _); [|done]. simpl in *.
    apply IH; try done. rewrite Hp. rewrite last_cons. by destruct (last rest).
Qed.

Lemma invariant_new now : invariant (new now).
Proof. split; try done. by exists now, []. Qed.

Lemma invariant_addTransaction tx st st' :
  invariant st → addTransaction tx st = Return tt st' → invariant st'.
Proof.
  intros [Hal Hpend Hvalid Hgen Hrew]. unfold addTransaction.
  destruct (_ || _); [discriminate|].
  destruct (Transaction.isValid tx) eqn:Htx; [|discriminate]. simpl.
  destruct (_ && _); [discriminate|]. intros [= <-].
  split; simpl.
  - done.
  - by rewrite forallb_app, Hpend; simpl; rewrite Htx.
  - unfold isChainValid in *. simpl. rewrite Hal, Nat.sub_0_r.
    by rewrite take_ge, drop_all, fmap_nil, app_nil_r.
  - rewrite Hal, Nat.sub_0_r. by rewrite take_ge, drop_all, fmap_nil, app_nil_r.
  - done.
Qed.

Lemma invariant_createToken name symbol totalSupply creator now st st' :
  invariant st → createToken name symbol totalSupply creator now st = Return tt st' →
  invariant st'.
Proof.
  intros [Hal Hpend Hvalid Hgen Hrew]. unfold createToken.
  destruct (tokenInfo st !! name); [discriminate|]. intros [= <-].
  by split.
Qed.

Lemma invariant_minePendingTransactions fuel env addr st b st' :
  invariant st → minePendingTransactions fuel env addr st = Some (Return b st') →
  invariant st'.
Proof.
  intros [Hal Hpend Hvalid (now & rest & Hgen) Hrew] Hmine.
  apply minePendingTransactions_Return in Hmine as (latest & st3 & Hlatest & Hpow & Hupd & ->).
  apply forEach_transaction_shell in Hupd. unfold shell in Hupd.
  injection Hupd as Hchain _ _ Hreward _ _ _.
  pose proof (push_pending_not_aliased (rewardTransaction env addr st) st Hal) as Hpush.
  change (chain st3 = chain (push_pending (rewardTransaction env addr st) st) ++ [b]) in Hchain.
  change (miningReward st3 = miningReward st) in Hreward.
  unfold getLatestBlock in Hlatest. rewrite Hpush, Hgen in Hlatest, Hchain.
  apply mineBlock_spec in Hpow as (_ & _ & Htxs & Hprev & _ & _ & _ & Hhash).
  specialize (Hhash (new_hash _ _ _)).
  change (Block.transactions b = pendingTransactions st ++ [rewardTransaction env addr st]) in Htxs.
  change (Block.previousHash b = Block.hash latest) in Hprev.
  split.
  - done.
  - done.
  - unfold isChainValid in *.
    change (chain (emit (blockMined b) (clear_pending st3))) with (chain st3).
    rewrite Hchain. rewrite Hgen in Hvalid. simpl.
    apply isChainValid_from_snoc; try done.
    + unfold Block.hasValidTransactions. rewrite Htxs, forallb_app, Hpend. done.
    + rewrite Hprev. rewrite last_cons in Hlatest. destruct (last rest); by injection Hlatest as ->.
  - change (chain (emit (blockMined b) (clear_pending st3))) with (chain st3).
    rewrite Hchain. by exists now, (rest ++ [b]).
  - change (miningReward (emit (blockMined b) (clear_pending st3))) with (miningReward st3).
    by rewrite Hreward.
Qed.

Lemma reachable_invariant st : reachable st → invariant st.
Proof.
  intros [now Hsteps]. revert st Hsteps.
  apply (rtc_ind_r (λ s, invariant s) (new now)); [apply invariant_new|].
  intros st1 st2 _ Hstep IH.
  destruct Hstep; eauto using invariant_addTransaction, invariant_createToken,
    invariant_minePendingTransactions.
Qed.

End MiningFacts.

(** ** Sums over a ledger *)

Section Sums.
Context {K : Type} `{Countable K} {V : Type} (f : V → Qc).

Lemma sum_values_comm (z1 z2 : V) (y : Qc) :
  (f z1 + (f z2 + y) = f z2 + (f z1 + y))%Qc.
Proof. ring. Qed.

Lemma sum_values_insert_fresh (m : gmap K V) (k : K) (v : V) :
  m !! k = None → sum_values f (<[k := v]> m) = (f v + sum_values f m)%Qc.
Proof.
  intros Hk. unfold sum_values. rewrite map_fold_insert_L; [done| |done].
  intros. apply sum_values_comm.
Qed.

Lemma sum_values_delete (m : gmap K V) (k : K) (x : V) :
  m !! k = Some x → sum_values f m = (f x + sum_values f (delete k m))%Qc.
Proof.
  intros Hk. unfold sum_values. rewrite (map_fold_delete_L _ _ k x m); [done| |done].
  intros. apply sum_values_comm.
Qed.

(** Writing one entry changes the sum by the new value minus the old. *)
Lemma sum_values_insert (m : gmap K V) (k : K) (v : V) :
  sum_values f (<[k := v]> m)
  = (sum_values f m - from_option f (dec 0 1) (m !! k) + f v)%Qc.
Proof.
  destruct (m !! k) as [x|] eqn:Hk; simpl.
  - rewrite <- insert_delete_eq.
    rewrite sum_values_insert_fresh by apply lookup_delete_eq.
    rewrite (sum_values_delete m k x Hk). ring.
  - rewrite sum_values_insert_fresh by done. unfold dec. ring.
Qed.

End Sums.

Section LedgerFacts.
Import Blockchain.

Lemma totalBalance_sum st : totalBalance st = sum_values (λ v, v) (balances st).
Proof. reflexivity. Qed.

Lemma circulating_sum tokenName st :
  circulating tokenName st
  = sum_values (λ userTokens : gmap (option string) Qc,
                  default (dec 0 1) (userTokens !! tokenName)) (tokens st).
Proof. reflexivity. Qed.

(** The [transfer] case never throws.  It takes the fee out of the total
    when the two parties differ; when they are the same address the second
    [set] overwrites the first with the balance read before it, plus the
    amount. *)
Lemma applyTransaction_transfer tx st :
  Transaction.type tx = "transfer" →
  ∃ st', applyTransaction tx st = Return tt st'
    ∧ tokens st' = tokens st
    ∧ totalBalance st'
      = (totalBalance st
         + (if decide (Transaction.from tx = Transaction.to tx)
            then Transaction.amount tx else - Transaction.fee tx))%Qc
    ∧ getBalance (Transaction.from tx) st'
      = (if decide (Transaction.from tx = Transaction.to tx)
         then getBalance (Transaction.from tx) st + Transaction.amount tx
         else getBalance (Transaction.from tx) st - Transaction.amount tx
              - Transaction.fee tx)%Qc.
Proof.
  intros Hty. unfold applyTransaction. rewrite Hty. simpl.
  eexists. split; [reflexivity|]. split; [reflexivity|].
  unfold getBalance. rewrite !totalBalance_sum. simpl.
  rewrite !sum_values_insert.
  destruct (decide (Transaction.from tx = Transaction.to tx)) as [Heq|Hne].
  - rewrite <- Heq. rewrite !lookup_insert_eq. simpl. split; [|done].
    destruct (balances st !! Transaction.from tx); simpl; unfold dec; ring.
  - rewrite !lookup_insert_ne by done. rewrite lookup_insert_eq. split; [|done].
    destruct (balances st !! Transaction.from tx), (balances st !! Transaction.to tx);
      simpl; unfold dec; ring.
Qed.

(** The [mining_reward] case adds the amount to the total, and the fee of
    the transaction plays no part. *)
Lemma applyTransaction_mining_reward tx st :
  Transaction.type tx = "mining_reward" →
  ∃ st', applyTransaction tx st = Return tt st'
    ∧ tokens st' = tokens st
    ∧ balances st'
      = <[Transaction.to tx := (getBalance (Transaction.to tx) st + Transaction.amount tx)%Qc]>
          (balances st)
    ∧ totalBalance st' = (totalBalance st + Transaction.amount tx)%Qc.
Proof.
  intros Hty. unfold applyTransaction. rewrite Hty. simpl.
  eexists. split; [reflexivity|]. split; [reflexivity|]. split; [reflexivity|].
  rewrite !totalBalance_sum. simpl. rewrite sum_values_insert.
  destruct (balances st !! Transaction.to tx); simpl; unfold dec; ring.
Qed.

(** [mintToken] adds the amount to what circulates of the token.  It does
    not read [tokenInfo]: the supply declared at creation is no bound. *)
Lemma mintToken_circulating tokenName to amount st :
  circulating tokenName (mintToken tokenName to amount st)
  = (circulating tokenName st + amount)%Qc
  ∧ tokenInfo (mintToken tokenName to amount st) = tokenInfo st.
Proof.
  split; [|reflexivity]. rewrite !circulating_sum. unfold mintToken. simpl.
  rewrite sum_values_insert. rewrite lookup_insert_eq. simpl.
  destruct (tokens st !! to) as [userTokens|]; simpl.
  - ring.
  - rewrite lookup_empty. simpl. unfold dec. ring.
Qed.

End LedgerFacts.

Section Claims.
Context `{Crypto}.
Import Blockchain.

Lemma foldl_fee_sum (txs : list Transaction.t) (acc : Qc) :
  foldl (λ sum tx, (sum + Transaction.fee tx)%Qc) acc txs = (acc + sum_fees txs)%Qc.
Proof.
  revert acc. induction txs as [|tx txs IH]; intros acc; simpl.
  - unfold dec. ring.
  - rewrite IH. ring.
Qed.

Lemma calculateReward_sum (b : Block.t) :
  Block.calculateReward b = (dec 10 1 + sum_fees (Block.transactions b))%Qc.
Proof. unfold Block.calculateReward. rewrite foldl_fee_sum. unfold dec. ring. Qed.

(** C1: every state that a freshly constructed chain reaches by calls of
    addTransaction, minePendingTransactions and createToken that return
    normally passes isChainValid; and the fresh chain holds exactly one
    block, the genesis block, whose previousHash is the string 0 and whose
    list of transactions is empty. *)
Theorem C1_reachable_chain_valid (st : t) :
  reachable st →
  isChainValid st = true
  ∧ (∀ now, st = new now →
       ∃ genesis, chain st = [genesis]
         ∧ Block.previousHash genesis = "0"
         ∧ Block.transactions genesis = []).
Proof.
  intros Hreach. split.
  - by destruct (reachable_invariant st Hreach).
  - intros now ->. by exists (createGenesisBlock now).
Qed.

(** C2: when mineBlock(d, minerAddress) returns, the first [d] characters
    of the hash of the block are all 0, the miner is the address given and
    the reward is 10 plus the fees of the transactions of the block; and the
    hash is the digest recomputed from previousHash, timestamp, the
    serialized transactions and the nonce, for every block that entered with
    the digest of its content as hash, which is how the constructor leaves
    a block ([new_hash]) and how [minePendingTransactions] passes it. *)
Theorem C2_mineBlock_postcondition (fuel d : nat) (minerAddress : option string)
    (b b' : Block.t) :
  Block.mineBlock fuel d minerAddress b = Some b' →
  (∀ i, i < d → String.get i (Block.hash b') = Some "0"%char)
  ∧ Block.miner b' = minerAddress
  ∧ Block.reward b' = (dec 10 1 + sum_fees (Block.transactions b'))%Qc
  ∧ (Block.hash b = Block.calculateHash b →
     Block.hash b'
     = sha256_hex (Block.previousHash b' +:+ pretty (Block.timestamp b')
                   +:+ JSON_stringify (Block.transactions b') +:+ pretty (Block.nonce b'))).
Proof.
  intros Hmine.
  apply mineBlock_spec in Hmine as (Hmeets & _ & Htxs & _ & Hminer & Hreward & _ & Hhash).
  split; [by apply meetsTarget_zeros|].
  split; [done|].
  split; [by rewrite Hreward, calculateReward_sum, Htxs|].
  exact Hhash.
Qed.

(** Every block that the constructor returns is such a block. *)
Corollary mineBlock_of_new_block (fuel d : nat) (minerAddress : option string)
    (ts : Z) (txs : list Transaction.t) (prev : string) (b' : Block.t) :
  Block.mineBlock fuel d minerAddress (Block.new ts txs prev) = Some b' →
  Block.hash b' = Block.calculateHash b'
  ∧ Block.transactions b' = txs ∧ Block.previousHash b' = prev ∧ Block.timestamp b' = ts.
Proof.
  intros Hmine.
  apply mineBlock_spec in Hmine as (_ & Hts & Htxs & Hprev & _ & _ & _ & Hhash).
  split; [apply Hhash, new_hash | done].
Qed.

(** The search ends when some nonce from the current one on gives a hash
    that meets the target. *)
Lemma mineBlock_terminates (k d : nat) (minerAddress : option string) (b : Block.t) :
  meetsTarget d (Block.hash (iterate_candidate k b)) = true →
  ∃ b', ∀ fuel, k ≤ fuel → Block.mineBlock fuel d minerAddress b = Some b'.
Proof.
  intros Hk. destruct (mine_loop_complete k d b Hk) as [b1 Hb1].
  eexists. intros fuel Hfuel. unfold Block.mineBlock. by rewrite (Hb1 fuel Hfuel).
Qed.

End Claims.

Lemma Demo_after_first_block_reachable : @reachable Demo.crypto Demo.after_first_block.
Proof.
  exists 1000%Z.
  eapply rtc_l; [|apply rtc_refl].
  eapply (@step_minePendingTransactions Demo.crypto 10 (Demo.env "r1" 2000) (Some "alice")).
  vm_compute. reflexivity.
Qed.

Lemma C1_witness :
  @reachable Demo.crypto Demo.after_first_block
  ∧ @Blockchain.isChainValid Demo.crypto Demo.after_first_block = true
  ∧ length (Blockchain.chain Demo.after_first_block) = 2.
Proof.
  split; [apply Demo_after_first_block_reachable|].
  split; [|reflexivity].
  apply (@C1_reachable_chain_valid Demo.crypto Demo.after_first_block).
  apply Demo_after_first_block_reachable.
Defined.

Lemma C2_witness :
  ∃ b', @Block.mineBlock Demo.crypto 10 4 (Some "alice")
          (@Block.new Demo.crypto 2000 [Demo.transfer "t1" "alice" "bob" (dec 5 1)] "9f86d081")
        = Some b'
    ∧ Block.nonce b' = 3%N
    ∧ (∀ i, i < 4 → String.get i (Block.hash b') = Some "0"%char)
    ∧ Block.miner b' = Some "alice"
    ∧ Block.reward b' = (dec 10 1 + sum_fees (Block.transactions b'))%Qc
    ∧ Block.hash b' = @Block.calculateHash Demo.crypto b'.
Proof.
  eexists. split; [vm_compute; reflexivity|].
  split; [reflexivity|].
  destruct (@C2_mineBlock_postcondition Demo.crypto 10 4 (Some "alice")
              (@Block.new Demo.crypto 2000 [Demo.transfer "t1" "alice" "bob" (dec 5 1)]
                 "9f86d081") _ ltac:(vm_compute; reflexivity))
    as (Hzeros & Hminer & Hreward & Hhash).
  split; [exact Hzeros|]. split; [exact Hminer|]. split; [exact Hreward|].
  apply Hhash. reflexivity.
Defined.

Section MoreClaims.
Context `{Crypto}.
Import Blockchain.

(** The ledgers after a call that returned a block are those that the
    pool followed by the reward transaction makes of the ledgers before. *)
Lemma minePendingTransactions_ledgers fuel env addr st b st' :
  minePendingTransactions fuel env addr st = Some (Return b st') →
  ∃ st3,
    forEach_transaction (pendingTransactions st ++ [rewardTransaction env addr st]) st
      = Return tt st3
    ∧ balances st' = balances st3 ∧ tokens st' = tokens st3
    ∧ tokenInfo st' = tokenInfo st
    ∧ Block.transactions b = pendingTransactions st ++ [rewardTransaction env addr st].
Proof.
  intros Hmine.
  apply minePendingTransactions_Return in Hmine as (latest & s3 & _ & Hpow & Hupd & ->).
  set (st1 := push_pending (rewardTransaction env addr st) st) in *.
  pose proof (forEach_transaction_ledgers
                (pendingTransactions st ++ [rewardTransaction env addr st])
                (push_block b st1) st eq_refl eq_refl) as Hled.
  rewrite Hupd in Hled.
  destruct (forEach_transaction _ st) as [[] st3|]; [|done].
  destruct Hled as [Hb Ht]. exists st3. split; [done|].
  apply forEach_transaction_shell in Hupd. unfold shell in Hupd.
  injection Hupd as _ _ _ _ Hinfo _ _.
  apply mineBlock_spec in Hpow as (_ & _ & Htxs & _).
  repeat split; done.
Qed.

Lemma applyTransaction_mint_token tx st :
  Transaction.type tx = "mint_token" →
  applyTransaction tx st
  = Return tt (mintToken (Transaction.tokenName (Transaction.data tx)) (Transaction.to tx)
                 (Transaction.amount tx) st).
Proof. intros Hty. unfold applyTransaction. by rewrite Hty. Qed.

Lemma applyTransaction_transfer_token tx st :
  Transaction.type tx = "transfer_token" →
  applyTransaction tx st
  = transferToken (Transaction.tokenName (Transaction.data tx)) (Transaction.from tx)
      (Transaction.to tx) (Transaction.amount tx) st.
Proof. intros Hty. unfold applyTransaction. by rewrite Hty. Qed.

Lemma addTransaction_Throw tx st e st' :
  addTransaction tx st = Throw e st' → st' = st.
Proof.
  unfold addTransaction.
  case_tests; by intros [= <- <-] || discriminate.
Qed.

Lemma addTransaction_Return tx st st' :
  addTransaction tx st = Return tt st' →
  st' = accepted tx st
  ∧ truthy (Transaction.from tx) = true ∧ truthy (Transaction.to tx) = true
  ∧ Transaction.isValid tx = true.
Proof.
  unfold addTransaction.
  destruct (truthy (Transaction.from tx)), (truthy (Transaction.to tx)); simpl;
    try discriminate.
  destruct (Transaction.isValid tx); simpl; [|discriminate].
  destruct (_ && _); [discriminate|]. by intros [= <-].
Qed.

(** C3, amended: for a transaction of type transfer, addTransaction
    throws InsufficientFunds exactly when both parties are present, the
    transaction passes isValid and getBalance(from) is strictly less than
    amount + fee, the sum being the double that the addition of the source
    returns (a missing party or an invalid signature is reported first,
    whatever the balance); a call that throws leaves the whole state as it
    was, and a call that returns has appended the transaction to the
    pending pool. *)
Theorem C3_addTransaction_transfer (tx : Transaction.t) (st : t) :
  Transaction.type tx = "transfer" →
  ((∃ st', addTransaction tx st = Throw InsufficientFunds st')
   ↔ truthy (Transaction.from tx) = true ∧ truthy (Transaction.to tx) = true
     ∧ Transaction.isValid tx = true
     ∧ (Double.round (getBalance (Transaction.from tx) st)
        < Double.add (Transaction.amount tx) (Transaction.fee tx))%Qc)
  ∧ (∀ e st', addTransaction tx st = Throw e st' → st' = st)
  ∧ (∀ st', addTransaction tx st = Return tt st' →
       pendingTransactions st' = pendingTransactions st ++ [tx]).
Proof.
  intros Hty. split; [|split].
  - unfold addTransaction. rewrite Hty. simpl.
    destruct (truthy (Transaction.from tx)), (truthy (Transaction.to tx)); simpl;
      try (split; [intros [? [=]] | intros (? & ? & _); discriminate]).
    destruct (Transaction.isValid tx); simpl;
      [|split; [intros [? [=]] | intros (_ & _ & ? & _); discriminate]].
    destruct (Qc_ltb _ _) eqn:Hlt.
    + apply Qc_ltb_lt in Hlt. split; [done | by exists st].
    + apply Qc_ltb_ge in Hlt. split; [intros [? [=]]|].
      intros (_ & _ & _ & Hlt'). by apply Qcle_not_lt in Hlt.
  - intros e st'. apply addTransaction_Throw.
  - intros st' Hret. by apply addTransaction_Return in Hret as [-> _].
Qed.

(** C4: addTransaction tests [!transaction.from] before it looks at the
    type, so a transaction without a sender is refused with the error of
    the missing parties also when its type is mint_token or mining_reward,
    and the state is left as it was: the system-issued types do not bypass
    the check of the sender. *)
Theorem C4_absent_from_is_refused (tx : Transaction.t) (st : t) :
  truthy (Transaction.from tx) = false →
  addTransaction tx st = Throw MissingParties st.
Proof. intros Hfrom. unfold addTransaction. by rewrite Hfrom. Qed.

Lemma minePendingTransactions_no_proof_of_work fuel env addr st latest :
  getLatestBlock (push_pending (rewardTransaction env addr st) st) = Some latest →
  Block.mineBlock fuel (difficulty st) addr
    (Block.new (block_now env) (pendingTransactions st ++ [rewardTransaction env addr st])
       (Block.hash latest)) = None →
  minePendingTransactions fuel env addr st = None.
Proof.
  intros Hlatest Hpow. unfold minePendingTransactions.
  fold (rewardTransaction env addr st). rewrite Hlatest.
  change (pendingTransactions (push_pending ?tx st)) with (pendingTransactions st ++ [tx]).
  change (difficulty (push_pending ?tx st)) with (difficulty st).
  by rewrite Hpow.
Qed.

Lemma reachable_latest st :
  reachable st → aliased st = 0 ∧ ∃ latest, getLatestBlock st = Some latest.
Proof.
  intros Hreach. destruct (reachable_invariant st Hreach) as [Hal _ _ (now & rest & Hgen) _].
  split; [done|]. unfold getLatestBlock. rewrite Hgen, last_cons.
  destruct (last rest); eauto.
Qed.

(** C5: the failed commit does not leave the state as it was.  When the
    state applier reaches a transfer_token transaction of the block whose
    sender holds strictly less of the token than the amount,
    minePendingTransactions throws InsufficientTokenBalance, as the claim
    says, but after [chain.push] and before the pool is reset: the mined
    block stays at the end of the chain, the pending pool keeps its
    transactions followed by the reward transaction, and the balances and
    token balances are those left by the transactions that precede the
    failing one. *)
Theorem C5_failed_commit_is_not_rolled_back (fuel : nat) (env : MineEnv)
    (addr : option string) (st : t) (pre post : list Transaction.t)
    (tx : Transaction.t) (st_pre : t) :
  reachable st →
  pendingTransactions st = pre ++ tx :: post →
  Transaction.type tx = "transfer_token" →
  forEach_transaction pre st = Return tt st_pre →
  (getTokenBalance (Transaction.from tx) (Transaction.tokenName (Transaction.data tx)) st_pre
   < Transaction.amount tx)%Qc →
  is_Some (minePendingTransactions fuel env addr st) →
  ∃ b st',
    minePendingTransactions fuel env addr st = Some (Throw InsufficientTokenBalance st')
    ∧ chain st' = chain st ++ [b]
    ∧ Block.transactions b = pendingTransactions st ++ [rewardTransaction env addr st]
    ∧ pendingTransactions st' = pendingTransactions st ++ [rewardTransaction env addr st]
    ∧ balances st' = balances st_pre
    ∧ tokens st' = tokens st_pre.
Proof.
  intros Hreach Hpool Hty Hpre Hlt [r Hr].
  destruct (reachable_latest st Hreach) as [Hal [latest Hlatest]].
  set (reward := rewardTransaction env addr st) in *.
  pose proof (push_pending_not_aliased reward st Hal) as Hchain1.
  assert (getLatestBlock (push_pending reward st) = Some latest) as Hlatest1.
  { unfold getLatestBlock in *. by rewrite Hchain1. }
  destruct (Block.mineBlock fuel (difficulty st) addr
              (Block.new (block_now env) (pendingTransactions st ++ [reward])
                 (Block.hash latest))) as [b|] eqn:Hpow.
  2:{ by rewrite (minePendingTransactions_no_proof_of_work _ _ _ _ _ Hlatest1 Hpow) in Hr. }
  set (s0 := push_block b (push_pending reward st)).
  pose proof (forEach_transaction_ledgers pre s0 st eq_refl eq_refl) as Hled.
  rewrite Hpre in Hled.
  destruct (forEach_transaction pre s0) as [[] s_pre|] eqn:Hpre0; [|done].
  destruct Hled as [Hb Ht].
  assert (forEach_transaction (pendingTransactions st ++ [reward]) s0
          = Throw InsufficientTokenBalance s_pre) as Hupd.
  { rewrite Hpool, <- app_assoc, forEach_transaction_app, Hpre0. simpl.
    rewrite applyTransaction_transfer_token by done.
    unfold transferToken.
    assert (Qc_ltb (default (dec 0 1)
                      (default ∅ (tokens s_pre !! Transaction.from tx)
                         !! Transaction.tokenName (Transaction.data tx)))
                   (Transaction.amount tx) = true) as ->; [|done].
    apply Qc_ltb_lt. rewrite Ht. exact Hlt. }
  exists b, s_pre. split.
  - by apply (minePendingTransactions_Throw fuel env addr st latest b).
  - apply forEach_transaction_shell in Hpre0. unfold shell in Hpre0.
    injection Hpre0 as Hc _ Hp _ _ _ _.
    apply mineBlock_spec in Hpow as (_ & _ & Htxs & _).
    repeat split; try done.
    rewrite Hc. unfold s0. f_equal. exact Hchain1.
Qed.

End MoreClaims.

Section LedgerClaims.
Context `{Crypto}.
Import Blockchain.

(** The block that a call returns, and the pool it leaves. *)
Lemma minePendingTransactions_block fuel env addr st b st' :
  minePendingTransactions fuel env addr st = Some (Return b st') →
  meetsTarget (difficulty st) (Block.hash b) = true
  ∧ Block.hash b = Block.calculateHash b
  ∧ Block.transactions b = pendingTransactions st ++ [rewardTransaction env addr st]
  ∧ Block.miner b = addr
  ∧ Block.reward b = (dec 10 1 + sum_fees (Block.transactions b))%Qc
  ∧ Block.difficulty b = 4
  ∧ pendingTransactions st' = []
  ∧ difficulty st' = difficulty st.
Proof.
  intros Hmine.
  apply minePendingTransactions_Return in Hmine as (latest & s3 & _ & Hpow & Hupd & ->).
  apply forEach_transaction_shell in Hupd. unfold shell in Hupd.
  injection Hupd as _ Hdiff _ _ _ _ _.
  apply mineBlock_spec in Hpow as (Hmeets & _ & Htxs & _ & Hminer & Hreward & Hd & Hhash).
  repeat split; try done.
  - by apply Hhash.
  - by rewrite Hreward, calculateReward_sum, Htxs.
Qed.

(** One transfer between two different addresses and the reward: the
    total grows by the reward less the fee. *)
Lemma single_transfer_conservation fuel env addr st tx b st' :
  pendingTransactions st = [tx] →
  Transaction.type tx = "transfer" →
  Transaction.from tx ≠ Transaction.to tx →
  minePendingTransactions fuel env addr st = Some (Return b st') →
  totalBalance st' = (totalBalance st + (miningReward st - Transaction.fee tx))%Qc.
Proof.
  intros Hpool Hty Hne Hmine.
  apply minePendingTransactions_ledgers in Hmine as (st3 & Hupd & Hb & _).
  rewrite Hpool in Hupd. cbn [app] in Hupd. rewrite forEach_transaction_cons in Hupd.
  destruct (applyTransaction_transfer tx st Hty) as (st1 & Htx & _ & Htot1 & _).
  rewrite Htx, forEach_transaction_cons in Hupd.
  destruct (applyTransaction_mining_reward (rewardTransaction env addr st) st1 eq_refl)
    as (st2 & Hrew & _ & _ & Htot2).
  rewrite Hrew in Hupd. injection Hupd as <-.
  unfold totalBalance at 1. rewrite Hb. fold (totalBalance st2).
  rewrite Htot2, Htot1. rewrite decide_False by done. simpl. ring.
Qed.

(** C6: the total of the balances does not grow by r - f when the one
    transfer of the block has the same address as sender and receiver.
    updateBalances reads both balances before it writes either, so the
    credit overwrites the debit: the address gains the amount, the fee is
    not charged, and with the reward r the total grows by r + amount. *)
Theorem C6_self_transfer_total (fuel : nat) (env : MineEnv) (addr : option string)
    (st : t) (tx : Transaction.t) (b : Block.t) (st' : t) :
  pendingTransactions st = [tx] →
  Transaction.type tx = "transfer" →
  Transaction.from tx = Transaction.to tx →
  minePendingTransactions fuel env addr st = Some (Return b st') →
  Block.transactions b = [tx; rewardTransaction env addr st]
  ∧ Transaction.amount (rewardTransaction env addr st) = miningReward st
  ∧ totalBalance st' = (totalBalance st + (miningReward st + Transaction.amount tx))%Qc.
Proof.
  intros Hpool Hty Heq Hmine.
  apply minePendingTransactions_ledgers in Hmine as (st3 & Hupd & Hb & _ & _ & Htxs).
  rewrite Hpool in Hupd, Htxs. cbn [app] in Hupd. rewrite forEach_transaction_cons in Hupd.
  split; [done|]. split; [done|].
  destruct (applyTransaction_transfer tx st Hty) as (st1 & Htx & _ & Htot1 & _).
  rewrite Htx, forEach_transaction_cons in Hupd.
  destruct (applyTransaction_mining_reward (rewardTransaction env addr st) st1 eq_refl)
    as (st2 & Hrew & _ & _ & Htot2).
  rewrite Hrew in Hupd. injection Hupd as <-.
  unfold totalBalance at 1. rewrite Hb. fold (totalBalance st2).
  rewrite Htot2, Htot1. rewrite decide_True by done. simpl. ring.
Qed.

(** C8: the difficulty stored in a mined block is the 4 that the
    constructor of Block writes, whatever the difficulty of the chain that
    the hash was mined against: mineBlock never stores its argument. *)
Theorem C8_stored_difficulty_is_4 (fuel : nat) (env : MineEnv) (addr : option string)
    (st : t) (b : Block.t) (st' : t) :
  minePendingTransactions fuel env addr st = Some (Return b st') →
  Block.difficulty b = 4
  ∧ meetsTarget (difficulty st) (Block.hash b) = true
  ∧ last (chain st') = Some b.
Proof.
  intros Hmine.
  pose proof (minePendingTransactions_block _ _ _ _ _ _ Hmine) as (Hmeets & _ & _ & _ & _ & Hd & _).
  split; [done|]. split; [done|].
  apply minePendingTransactions_Return in Hmine as (latest & s3 & _ & _ & Hupd & ->).
  apply forEach_transaction_shell in Hupd. unfold shell in Hupd.
  injection Hupd as Hchain _ _ _ _ _ _.
  change (last (chain s3) = Some b). rewrite Hchain. apply last_snoc.
Qed.

Lemma calculateFee_10 : Transaction.calculateFee (dec 10 1) = dec 1 1000.
Proof. apply Qc_is_canon. reflexivity. Qed.

Lemma calculateFee_positive (amount : Qc) : (0 < Transaction.calculateFee amount)%Qc.
Proof.
  unfold Transaction.calculateFee.
  eapply Qclt_le_trans; [|apply Math_max_l]. reflexivity.
Qed.

(** C10: the reward transaction is built with no fee argument, so its fee
    is max(0.001, amount * 0.0001), which is positive; with an empty
    pending pool and the mining reward of 10 the block holds the reward
    transaction alone and its reward is 10 + 0.001 = 10.001, above the
    base reward of 10. *)
Theorem C10_empty_pool_block_reward (fuel : nat) (env : MineEnv) (addr : option string)
    (st : t) (b : Block.t) (st' : t) :
  pendingTransactions st = [] →
  miningReward st = dec 10 1 →
  minePendingTransactions fuel env addr st = Some (Return b st') →
  Transaction.fee (rewardTransaction env addr st)
    = Math_max (dec 1 1000) (miningReward st * dec 1 10000)
  ∧ (0 < Transaction.fee (rewardTransaction env addr st))%Qc
  ∧ Block.transactions b = [rewardTransaction env addr st]
  ∧ Block.reward b = (dec 10 1 + Transaction.fee (rewardTransaction env addr st))%Qc
  ∧ Block.reward b = dec 10001 1000
  ∧ (dec 10 1 < Block.reward b)%Qc.
Proof.
  intros Hpool Hrew Hmine.
  apply minePendingTransactions_block in Hmine as (_ & _ & Htxs & _ & Hreward & _).
  rewrite Hpool in Htxs. simpl in Htxs.
  split; [reflexivity|]. split; [apply calculateFee_positive|]. split; [done|].
  assert (Block.reward b = (dec 10 1 + Transaction.fee (rewardTransaction env addr st))%Qc)
    as Hr.
  { rewrite Hreward, Htxs. simpl. unfold dec. ring. }
  split; [done|].
  assert (Block.reward b = dec 10001 1000) as Hval.
  { rewrite Hr. simpl. rewrite Hrew, calculateFee_10. apply Qc_is_canon. reflexivity. }
  split; [done|]. rewrite Hval. reflexivity.
Qed.

End LedgerClaims.

Section Scenarios.
Context `{Crypto}.
Import Blockchain.

Lemma addTransaction_accepts tx st :
  truthy (Transaction.from tx) = true →
  truthy (Transaction.to tx) = true →
  Transaction.isValid tx = true →
  (Transaction.type tx = "transfer" →
   (Double.add (Transaction.amount tx) (Transaction.fee tx)
    ≤ Double.round (getBalance (Transaction.from tx) st))%Qc) →
  addTransaction tx st = Return tt (accepted tx st).
Proof.
  intros Hfrom Hto Hvalid Hfunds. unfold addTransaction.
  rewrite Hfrom, Hto, Hvalid. simpl.
  destruct (String.eqb (Transaction.type tx) "transfer") eqn:Hty; [|done].
  apply String.eqb_eq in Hty. apply Hfunds, Qc_ltb_ge in Hty. by rewrite Hty.
Qed.

Lemma with_gold_created now tnow :
  createToken "Gold" "GLD" (dec 1000 1) (Some "alice") tnow (new now)
  = Return tt (Scenario.with_gold now tnow).
Proof.
  unfold Scenario.with_gold, createToken.
  change (tokenInfo (new now)) with (∅ : gmap string TokenInfo).
  by rewrite lookup_empty.
Qed.

Lemma with_gold_circulating now tnow :
  circulating (Some "Gold") (Scenario.with_gold now tnow) = dec 1000 1.
Proof. apply Qc_is_canon. vm_compute. reflexivity. Qed.

Lemma with_gold_tokenInfo now tnow :
  ∃ info, tokenInfo (Scenario.with_gold now tnow) !! "Gold" = Some info
    ∧ totalSupply info = dec 1000 1.
Proof.
  unfold Scenario.with_gold, createToken.
  change (tokenInfo (new now)) with (∅ : gmap string TokenInfo).
  rewrite lookup_empty. simpl. rewrite lookup_insert_eq. by eexists.
Qed.

(** C7: on a fresh chain, createToken registers Gold with a total supply
    of 1000, all credited to alice; a mint_token transaction of 5 Gold is
    accepted by addTransaction and committed by the next block; then 1005
    Gold circulate, more than the total supply that tokenInfo still
    declares.  mintToken never reads tokenInfo. *)
Theorem C7_mint_exceeds_totalSupply (now tnow : Z) (fuel : nat) (env : MineEnv)
    (addr : option string) (b : Block.t) (st3 : t) :
  minePendingTransactions fuel env addr
    (accepted Scenario.gold_mint (Scenario.with_gold now tnow)) = Some (Return b st3) →
  createToken "Gold" "GLD" (dec 1000 1) (Some "alice") tnow (new now)
    = Return tt (Scenario.with_gold now tnow)
  ∧ addTransaction Scenario.gold_mint (Scenario.with_gold now tnow)
    = Return tt (accepted Scenario.gold_mint (Scenario.with_gold now tnow))
  ∧ reachable st3
  ∧ ∃ info, tokenInfo st3 !! "Gold" = Some info
      ∧ totalSupply info = dec 1000 1
      ∧ circulating (Some "Gold") st3 = dec 1005 1
      ∧ (totalSupply info < circulating (Some "Gold") st3)%Qc.
Proof.
  intros Hmine.
  pose proof (with_gold_created now tnow) as Hcreate.
  assert (addTransaction Scenario.gold_mint (Scenario.with_gold now tnow)
          = Return tt (accepted Scenario.gold_mint (Scenario.with_gold now tnow))) as Hadd.
  { apply addTransaction_accepts; [reflexivity..|]. intros [=]. }
  split; [done|]. split; [done|]. split.
  { exists now. eapply rtc_l; [by eapply step_createToken|].
    eapply rtc_l; [by eapply step_addTransaction|].
    eapply rtc_l; [by eapply step_minePendingTransactions|]. apply rtc_refl. }
  destruct (with_gold_tokenInfo now tnow) as (info & Hinfo & Hsupply).
  apply minePendingTransactions_ledgers in Hmine as (s3 & Hupd & _ & Htok & Hti & _).
  exists info. split; [by rewrite Hti|]. split; [done|].
  assert (circulating (Some "Gold") st3 = dec 1005 1) as Hcirc.
  { change (pendingTransactions (accepted Scenario.gold_mint (Scenario.with_gold now tnow)))
      with [Scenario.gold_mint] in Hupd.
    cbn [app] in Hupd.
    rewrite forEach_transaction_cons, applyTransaction_mint_token in Hupd by done.
    rewrite forEach_transaction_cons in Hupd.
    match type of Hupd with
    | context [applyTransaction ?r ?s] =>
        destruct (applyTransaction_mining_reward r s eq_refl) as (s2 & Hrew & Ht2 & _)
    end.
    rewrite Hrew in Hupd. injection Hupd as <-.
    unfold circulating at 1. rewrite Htok, Ht2.
    match goal with
    | |- map_fold _ _ (tokens (mintToken ?n ?to ?a ?s)) = _ =>
        change (circulating n (mintToken n to a s) = dec 1005 1);
        rewrite (proj1 (mintToken_circulating n to a s))
    end.
    change (circulating (Some "Gold") (Scenario.with_gold now tnow)
            + Transaction.amount Scenario.gold_mint = dec 1005 1)%Qc.
    rewrite with_gold_circulating. apply Qc_is_canon. reflexivity. }
  split; [done|]. rewrite Hcirc, Hsupply. reflexivity.
Qed.

End Scenarios.

Section Overspend.
Context `{Crypto}.
Import Blockchain.

Lemma getBalance_accepted tx address st :
  getBalance address (accepted tx st) = getBalance address st.
Proof. reflexivity. Qed.

(** The first block of a fresh chain, mined by alice, leaves her the
    mining reward of 10 and an empty pool. *)
Lemma first_block_balance now fuel env b st1 :
  minePendingTransactions fuel env (Some "alice") (new now) = Some (Return b st1) →
  getBalance (Some "alice") st1 = dec 10 1 ∧ pendingTransactions st1 = [].
Proof.
  intros Hmine.
  pose proof (minePendingTransactions_block _ _ _ _ _ _ Hmine) as (_ & _ & _ & _ & _ & _ & Hp & _).
  split; [|done].
  apply minePendingTransactions_ledgers in Hmine as (s3 & Hupd & Hb & _).
  change (pendingTransactions (new now)) with (@nil Transaction.t) in Hupd.
  cbn [app] in Hupd. rewrite forEach_transaction_cons in Hupd.
  match type of Hupd with
  | context [applyTransaction ?r ?s] =>
      destruct (applyTransaction_mining_reward r s eq_refl) as (s2 & Hrew & _ & Hb2 & _)
  end.
  rewrite Hrew in Hupd. injection Hupd as <-.
  unfold getBalance at 1. rewrite Hb, Hb2.
  change (Transaction.to (rewardTransaction env (Some "alice") (new now))) with (Some "alice").
  rewrite lookup_insert_eq. simpl. apply Qc_is_canon. reflexivity.
Qed.

(** C9: the transfer case of updateBalances returns for every transfer
    and every state, with no test of the balance.  On a fresh chain alice
    mines a block and holds 10; two transfers of 9 from alice, each with a
    fee of 0.001, are both accepted by addTransaction, since each is
    checked against the committed balance of 10; the block that commits
    them leaves getBalance(alice) at 10 - 9.001 - 9.001 = -8.002. *)
Theorem C9_pending_transfers_overdraw (now : Z) (fuel1 fuel2 : nat) (env1 env2 : MineEnv)
    (b1 b2 : Block.t) (st1 st4 : t) :
  minePendingTransactions fuel1 env1 (Some "alice") (new now) = Some (Return b1 st1) →
  minePendingTransactions fuel2 env2 (Some "carol")
    (accepted Scenario.spend2 (accepted Scenario.spend1 st1)) = Some (Return b2 st4) →
  (∀ tx st, Transaction.type tx = "transfer" → ∃ st', applyTransaction tx st = Return tt st')
  ∧ getBalance (Some "alice") st1 = dec 10 1
  ∧ addTransaction Scenario.spend1 st1 = Return tt (accepted Scenario.spend1 st1)
  ∧ addTransaction Scenario.spend2 (accepted Scenario.spend1 st1)
    = Return tt (accepted Scenario.spend2 (accepted Scenario.spend1 st1))
  ∧ reachable st4
  ∧ getBalance (Some "alice") st4 = dec (-8002) 1000
  ∧ (getBalance (Some "alice") st4 < 0)%Qc.
Proof.
  intros Hmine1 Hmine2.
  destruct (first_block_balance _ _ _ _ _ Hmine1) as [Hbal1 Hpool1].
  assert (addTransaction Scenario.spend1 st1 = Return tt (accepted Scenario.spend1 st1))
    as Hadd1.
  { apply addTransaction_accepts; [reflexivity..|].
    intros _. change (Transaction.from Scenario.spend1) with (Some "alice").
    rewrite Hbal1. by vm_compute. }
  assert (addTransaction Scenario.spend2 (accepted Scenario.spend1 st1)
          = Return tt (accepted Scenario.spend2 (accepted Scenario.spend1 st1))) as Hadd2.
  { apply addTransaction_accepts; [reflexivity..|].
    intros _. change (Transaction.from Scenario.spend2) with (Some "alice").
    rewrite getBalance_accepted, Hbal1. by vm_compute. }
  split.
  { intros tx st Hty. destruct (applyTransaction_transfer tx st Hty) as (st' & ? & _). eauto. }
  split; [done|]. split; [done|]. split; [done|]. split.
  { exists now. eapply rtc_l; [by eapply step_minePendingTransactions|].
    eapply rtc_l; [by eapply step_addTransaction|].
    eapply rtc_l; [by eapply step_addTransaction|].
    eapply rtc_l; [by eapply step_minePendingTransactions|]. apply rtc_refl. }
  assert (getBalance (Some "alice") st4 = dec (-8002) 1000) as Hfinal.
  { apply minePendingTransactions_ledgers in Hmine2 as (s3 & Hupd & Hb & _).
    change (pendingTransactions (accepted Scenario.spend2 (accepted Scenario.spend1 st1)))
      with ((pendingTransactions st1 ++ [Scenario.spend1]) ++ [Scenario.spend2]) in Hupd.
    rewrite Hpool1 in Hupd. cbn [app] in Hupd.
    set (s0 := accepted Scenario.spend2 (accepted Scenario.spend1 st1)) in *.
    rewrite forEach_transaction_cons in Hupd.
    destruct (applyTransaction_transfer Scenario.spend1 s0 eq_refl)
      as (sa & Ha & _ & _ & Hbala).
    rewrite Ha, forEach_transaction_cons in Hupd.
    destruct (applyTransaction_transfer Scenario.spend2 sa eq_refl)
      as (sb & Hb' & _ & _ & Hbalb).
    rewrite Hb', forEach_transaction_cons in Hupd.
    match type of Hupd with
    | context [applyTransaction ?r ?s] =>
        destruct (applyTransaction_mining_reward r s eq_refl) as (sc & Hrew & _ & Hbc & _)
    end.
    rewrite Hrew in Hupd. injection Hupd as <-.
    unfold getBalance at 1. rewrite Hb, Hbc.
    rewrite lookup_insert_ne by done. fold (getBalance (Some "alice") sb).
    rewrite decide_False in Hbala, Hbalb by done.
    change (Transaction.from Scenario.spend1) with (Some "alice") in Hbala.
    change (Transaction.from Scenario.spend2) with (Some "alice") in Hbalb.
    rewrite Hbalb, Hbala. unfold s0. rewrite !getBalance_accepted, Hbal1.
    apply Qc_is_canon. vm_compute. reflexivity. }
  split; [done|]. rewrite Hfinal. reflexivity.
Qed.

End Overspend.

Lemma C3_counterexample :
  Transaction.type Runs.unsigned_transfer = "transfer"
  ∧ (Double.round (Blockchain.getBalance (Transaction.from Runs.unsigned_transfer) Demo.fresh)
     < Double.add (Transaction.amount Runs.unsigned_transfer)
         (Transaction.fee Runs.unsigned_transfer))%Qc
  ∧ Blockchain.addTransaction Runs.unsigned_transfer Demo.fresh
    = Blockchain.Throw Blockchain.InvalidSignature Demo.fresh.
Proof.
  split; [reflexivity|]. split; [vm_compute; reflexivity|]. vm_compute. reflexivity.
Qed.

Lemma C3_witness :
  Transaction.type Runs.overspend = "transfer"
  ∧ (∃ st', Blockchain.addTransaction Runs.overspend Demo.after_first_block
            = Blockchain.Throw Blockchain.InsufficientFunds st')
  ∧ (Double.round (Blockchain.getBalance (Some "alice") Demo.after_first_block)
     < Double.add (Transaction.amount Runs.overspend) (Transaction.fee Runs.overspend))%Qc.
Proof.
  destruct (C3_addTransaction_transfer Runs.overspend Demo.after_first_block eq_refl)
    as [[_ Hthrows] _].
  split; [reflexivity|]. split; [|vm_compute; reflexivity].
  apply Hthrows. repeat split; vm_compute; reflexivity.
Defined.

(** The sum of the test is the rounded one.  With 7.999 held, a transfer of
    7.998 at the fee of 0.001 is refused: in doubles 7.998 + 0.001 is
    7.9990000000000006, greater than the balance, although the decimal
    numbers add up to the balance. *)
Example addTransaction_sum_is_rounded :
  Transaction.fee Cases.spend_7998 = dec 1 1000
  ∧ (Transaction.amount Cases.spend_7998 + Transaction.fee Cases.spend_7998)%Qc
    = Blockchain.getBalance (Some "alice") Cases.holds_7999
  ∧ Double.round (dec 7999 1000) = Q2Qc (9006073354834149 # 1125899906842624)
  ∧ Double.add (dec 7998 1000) (dec 1 1000) = Q2Qc (4503036677417075 # 562949953421312)
  ∧ Blockchain.addTransaction Cases.spend_7998 Cases.holds_7999
    = Blockchain.Throw Blockchain.InsufficientFunds Cases.holds_7999.
Proof.
  split; [apply Qc_is_canon; vm_compute; reflexivity|].
  split; [apply Qc_is_canon; vm_compute; reflexivity|].
  split; [apply Qc_is_canon; vm_compute; reflexivity|].
  split; [apply Qc_is_canon; vm_compute; reflexivity|].
  vm_compute. reflexivity.
Qed.

Lemma C4_witness :
  truthy (Transaction.from Runs.system_mint) = false
  ∧ Transaction.type Runs.system_mint = "mint_token"
  ∧ truthy (Transaction.to Runs.system_mint) = true
  ∧ Blockchain.addTransaction Runs.system_mint Demo.fresh
    = Blockchain.Throw Blockchain.MissingParties Demo.fresh.
Proof.
  split; [reflexivity|]. split; [reflexivity|]. split; [reflexivity|].
  apply (C4_absent_from_is_refused Runs.system_mint Demo.fresh). reflexivity.
Defined.

Lemma Runs_overdrawn_pool_reachable : @reachable Demo.crypto Runs.overdrawn_pool.
Proof.
  exists 1000%Z.
  eapply rtc_l.
  { eapply (@step_createToken Demo.crypto "Gold" "GLD" (dec 200 1) (Some "alice") 1500).
    vm_compute. reflexivity. }
  eapply rtc_l.
  { eapply (@step_addTransaction Demo.crypto Runs.carol_mint). vm_compute. reflexivity. }
  eapply rtc_l; [|apply rtc_refl].
  eapply (@step_addTransaction Demo.crypto Runs.token_overdraw). vm_compute. reflexivity.
Qed.

Lemma C5_counterexample :
  ∃ st',
    @Blockchain.minePendingTransactions Demo.crypto 10 (Demo.env "r2" 4000) (Some "dave")
      Runs.overdrawn_pool
    = Some (Blockchain.Throw Blockchain.InsufficientTokenBalance st')
    ∧ (Blockchain.getTokenBalance (Some "alice") (Some "Gold") Runs.overdrawn_pool
       < Transaction.amount Runs.token_overdraw)%Qc
    ∧ length (Blockchain.chain Runs.overdrawn_pool) = 1
    ∧ length (Blockchain.chain st') = 2
    ∧ length (Blockchain.pendingTransactions Runs.overdrawn_pool) = 2
    ∧ length (Blockchain.pendingTransactions st') = 3
    ∧ Blockchain.tokens Runs.overdrawn_pool !! Some "carol" = None
    ∧ is_Some (Blockchain.tokens st' !! Some "carol").
Proof.
  eexists. split; [vm_compute; reflexivity|].
  repeat split; try reflexivity. by eexists.
Qed.

(** Why C1 speaks of calls that return normally: after a commit that
    threw, the appended block holds the pool array, and the next accepted
    transaction changes the content of that block under its hash. *)
Example push_after_failed_commit_invalidates :
  ∃ st3 st4,
    @Blockchain.minePendingTransactions Demo.content_crypto 10 (Demo.env "r2" 4000)
      (Some "dave")
      (accepted Runs.token_overdraw
         (Demo.state_of (@Blockchain.new Demo.content_crypto 1000)
            (Blockchain.createToken "Gold" "GLD" (dec 200 1) (Some "alice") 1500
               (@Blockchain.new Demo.content_crypto 1000))))
    = Some (Blockchain.Throw Blockchain.InsufficientTokenBalance st3)
    ∧ @Blockchain.isChainValid Demo.content_crypto st3 = true
    ∧ Blockchain.addTransaction Runs.carol_mint st3 = Blockchain.Return tt st4
    ∧ @Blockchain.isChainValid Demo.content_crypto st4 = false.
Proof.
  eexists _, _. split; [vm_compute; reflexivity|].
  split; [vm_compute; reflexivity|].
  split; [vm_compute; reflexivity|].
  vm_compute. reflexivity.
Qed.

Lemma C5_witness :
  ∃ b st',
    @Blockchain.minePendingTransactions Demo.crypto 10 (Demo.env "r2" 4000) (Some "dave")
      Runs.overdrawn_pool
    = Some (Blockchain.Throw Blockchain.InsufficientTokenBalance st')
    ∧ Blockchain.chain st' = Blockchain.chain Runs.overdrawn_pool ++ [b]
    ∧ Block.transactions b
      = Blockchain.pendingTransactions Runs.overdrawn_pool
        ++ [rewardTransaction (Demo.env "r2" 4000) (Some "dave") Runs.overdrawn_pool]
    ∧ Blockchain.pendingTransactions st'
      = Blockchain.pendingTransactions Runs.overdrawn_pool
        ++ [rewardTransaction (Demo.env "r2" 4000) (Some "dave") Runs.overdrawn_pool]
    ∧ Blockchain.balances st' = Blockchain.balances Runs.after_carol_mint
    ∧ Blockchain.tokens st' = Blockchain.tokens Runs.after_carol_mint.
Proof.
  apply (@C5_failed_commit_is_not_rolled_back Demo.crypto 10 (Demo.env "r2" 4000) (Some "dave")
           Runs.overdrawn_pool [Runs.carol_mint] [] Runs.token_overdraw Runs.after_carol_mint).
  - apply Runs_overdrawn_pool_reachable.
  - reflexivity.
  - reflexivity.
  - vm_compute. reflexivity.
  - reflexivity.
  - vm_compute. by eexists.
Defined.

Lemma C6_witness :
  ∃ b st',
    Blockchain.addTransaction Runs.self_transfer Demo.after_first_block
    = Blockchain.Return tt Runs.self_transfer_pool
    ∧ @Blockchain.minePendingTransactions Demo.crypto 10 (Demo.env "r3" 5000) (Some "carol")
        Runs.self_transfer_pool = Some (Blockchain.Return b st')
    ∧ Blockchain.totalBalance Runs.self_transfer_pool = dec 10 1
    ∧ Transaction.fee Runs.self_transfer = dec 1 1000
    ∧ Blockchain.totalBalance st'
      = (Blockchain.totalBalance Runs.self_transfer_pool
         + (Blockchain.miningReward Runs.self_transfer_pool
            + Transaction.amount Runs.self_transfer))%Qc
    ∧ Blockchain.totalBalance st' = dec 25 1.
Proof.
  eexists _, _. split; [vm_compute; reflexivity|].
  split; [vm_compute; reflexivity|].
  split; [apply Qc_is_canon; reflexivity|].
  split; [apply Qc_is_canon; reflexivity|].
  split; [|apply Qc_is_canon; reflexivity].
  eapply (@C6_self_transfer_total Demo.crypto 10 (Demo.env "r3" 5000) (Some "carol")
            Runs.self_transfer_pool Runs.self_transfer).
  - reflexivity.
  - reflexivity.
  - reflexivity.
  - vm_compute. reflexivity.
Defined.

Lemma C7_witness :
  ∃ b st3,
    @Blockchain.minePendingTransactions Demo.crypto 10 (Demo.env "r4" 6000) (Some "carol")
      (accepted Scenario.gold_mint (@Scenario.with_gold Demo.crypto 1000 1500))
    = Some (Blockchain.Return b st3)
    ∧ @reachable Demo.crypto st3
    ∧ ∃ info, Blockchain.tokenInfo st3 !! "Gold" = Some info
        ∧ (Blockchain.totalSupply info < Blockchain.circulating (Some "Gold") st3)%Qc.
Proof.
  eexists _, _. split; [vm_compute; reflexivity|].
  destruct (@C7_mint_exceeds_totalSupply Demo.crypto 1000 1500 10 (Demo.env "r4" 6000)
              (Some "carol") _ _ ltac:(vm_compute; reflexivity))
    as (_ & _ & Hreach & info & Hinfo & _ & _ & Hlt).
  split; [exact Hreach|]. exists info. split; [exact Hinfo | exact Hlt].
Defined.

Lemma C8_witness :
  ∃ b st',
    @Blockchain.minePendingTransactions Demo.crypto 10 (Demo.env "r5" 7000) (Some "alice")
      (Blockchain.setDifficulty 2 Demo.fresh) = Some (Blockchain.Return b st')
    ∧ Blockchain.difficulty (Blockchain.setDifficulty 2 Demo.fresh) = 2
    ∧ Block.hash b = "00c4e2b7"
    ∧ Block.difficulty b = 4.
Proof.
  eexists _, _. split; [vm_compute; reflexivity|].
  split; [reflexivity|]. split; [reflexivity|].
  eapply (@C8_stored_difficulty_is_4 Demo.crypto 10 (Demo.env "r5" 7000) (Some "alice")
            (Blockchain.setDifficulty 2 Demo.fresh)).
  vm_compute. reflexivity.
Defined.

Lemma C9_witness :
  ∃ b1 st1 b2 st4,
    @Blockchain.minePendingTransactions Demo.crypto 10 (Demo.env "r1" 2000) (Some "alice")
      (@Blockchain.new Demo.crypto 1000) = Some (Blockchain.Return b1 st1)
    ∧ @Blockchain.minePendingTransactions Demo.crypto 10 (Demo.env "r6" 8000) (Some "carol")
        (accepted Scenario.spend2 (accepted Scenario.spend1 st1))
      = Some (Blockchain.Return b2 st4)
    ∧ @reachable Demo.crypto st4
    ∧ (Blockchain.getBalance (Some "alice") st4 < 0)%Qc.
Proof.
  eexists _, _, _, _. split; [vm_compute; reflexivity|].
  split; [vm_compute; reflexivity|].
  destruct (@C9_pending_transfers_overdraw Demo.crypto 1000 10 10 (Demo.env "r1" 2000)
              (Demo.env "r6" 8000) _ _ _ _
              ltac:(vm_compute; reflexivity) ltac:(vm_compute; reflexivity))
    as (_ & _ & _ & _ & Hreach & _ & Hneg).
  split; [exact Hreach | exact Hneg].
Defined.

Lemma C10_witness :
  ∃ b st',
    @Blockchain.minePendingTransactions Demo.crypto 10 (Demo.env "r1" 2000) (Some "alice")
      Demo.fresh = Some (Blockchain.Return b st')
    ∧ Block.transactions b = [rewardTransaction (Demo.env "r1" 2000) (Some "alice") Demo.fresh]
    ∧ Block.reward b = dec 10001 1000
    ∧ (dec 10 1 < Block.reward b)%Qc.
Proof.
  eexists _, _. split; [vm_compute; reflexivity|].
  destruct (@C10_empty_pool_block_reward Demo.crypto 10 (Demo.env "r1" 2000) (Some "alice")
              Demo.fresh _ _ eq_refl eq_refl ltac:(vm_compute; reflexivity))
    as (_ & _ & Htxs & _ & Hval & Hgt).
  split; [exact Htxs|]. split; [exact Hval | exact Hgt].
Defined.

(** * More of the code *)


(** ** Fees and validity of a transaction *)


Lemma truthy_length (s : string) : truthy (Some s) = (0 <? String.length s).
Proof. by destruct s. Qed.

(** X2: a transaction as the constructor returns it, not yet signed, passes
    isValid exactly when its type is mining_reward or mint_token; once
    sign has stored a signature, it passes exactly when its type is one of
    these two or both the signature and the sender are non-empty strings.
    What the signature says is never looked at. *)
Theorem isValid_unsigned_signed (uuid : string) (now : Z) (from to : option string)
    (amount : Qc) (type : string) (data : Transaction.Data) (customFee : option Qc)
    (sig : string) :
  let tx := Transaction.new uuid now from to amount type data customFee in
  Transaction.isValid tx
  = (String.eqb type "mining_reward" || String.eqb type "mint_token")
  ∧ Transaction.isValid (Transaction.sign sig tx)
    = (String.eqb type "mining_reward" || String.eqb type "mint_token")
      || (negb (String.eqb sig "") && truthy from).
Proof.
  unfold Transaction.isValid. simpl.
  destruct (_ || _); [done|]. split; [done|].
  rewrite <- (truthy_length sig). simpl.
  destruct (String.eqb sig ""); [done|]. simpl. by destruct (truthy from).
Qed.

(** ** The proof-of-work search *)

Section SearchFacts.
Context `{Crypto}.

Lemma iterate_candidate_S (k : nat) (b : Block.t) :
  iterate_candidate (S k) b = next_candidate (iterate_candidate k b).
Proof. revert b. induction k as [|k IH]; intros b; [done|]. simpl in *. by rewrite IH. Qed.

Lemma iterate_candidate_nonce (k : nat) (b : Block.t) :
  Block.nonce (iterate_candidate k b) = (Block.nonce b + N.of_nat k)%N.
Proof.
  induction k as [|k IH]; [simpl; lia|].
  rewrite iterate_candidate_S. simpl. rewrite IH. lia.
Qed.

Lemma mine_loop_first (fuel d : nat) (b b' : Block.t) :
  Block.mine_loop fuel d b = Some b' →
  ∃ k, k ≤ fuel ∧ b' = iterate_candidate k b
    ∧ ∀ j, j < k → meetsTarget d (Block.hash (iterate_candidate j b)) = false.
Proof.
  revert b. induction fuel as [|fuel IH]; intros b; rewrite mine_loop_unfold;
    destruct (meetsTarget d (Block.hash b)) eqn:Hm; try discriminate.
  - intros [= <-]. exists 0. split; [lia|]. split; [done|]. intros; lia.
  - intros [= <-]. exists 0. split; [lia|]. split; [done|]. intros; lia.
  - intros Hloop. apply IH in Hloop as (k & Hk & -> & Hfirst).
    exists (S k). split; [lia|]. split; [done|].
    intros [|j] Hj; [done|]. simpl. apply Hfirst. lia.
Qed.

(** X3: the block that mineBlock returns carries the first nonce, counted
    from the nonce of the block it was given, whose hash meets the target:
    the hash of every earlier nonce fails the test of the loop, and the
    nonce has grown by the number of iterations. *)
Theorem mineBlock_first_nonce (fuel d : nat) (minerAddress : option string) (b b' : Block.t) :
  Block.mineBlock fuel d minerAddress b = Some b' →
  ∃ k, k ≤ fuel
    ∧ Block.nonce b' = (Block.nonce b + N.of_nat k)%N
    ∧ Block.hash b' = Block.hash (iterate_candidate k b)
    ∧ meetsTarget d (Block.hash b') = true
    ∧ ∀ j, j < k → meetsTarget d (Block.hash (iterate_candidate j b)) = false.
Proof.
  intros Hmine.
  pose proof (mineBlock_spec _ _ _ _ _ Hmine) as (Hmeets & _).
  unfold Block.mineBlock in Hmine.
  destruct (Block.mine_loop fuel d b) as [b1|] eqn:Hloop; [|done].
  injection Hmine as <-.
  apply mine_loop_first in Hloop as (k & Hk & -> & Hfirst).
  exists k. repeat split; try done. simpl. apply iterate_candidate_nonce.
Qed.

Lemma meetsTarget_short (d : nat) (h : string) :
  String.length h < d → meetsTarget d h = false.
Proof.
  intros Hlen. destruct (meetsTarget d h) eqn:Hm; [|done].
  apply meetsTarget_length in Hm. lia.
Qed.

(** X4: when the difficulty exceeds the length of every digest (64 for the
    hexadecimal SHA-256) and of the hash the block holds, no amount of fuel
    makes mineBlock return: the loop never ends. *)
Theorem mineBlock_difficulty_beyond_digest (fuel d : nat) (minerAddress : option string)
    (b : Block.t) :
  (∀ s, String.length (sha256_hex s) < d) →
  String.length (Block.hash b) < d →
  Block.mineBlock fuel d minerAddress b = None.
Proof.
  intros Hdigest Hb. unfold Block.mineBlock.
  assert (Block.mine_loop fuel d b = None) as ->; [|done].
  revert b Hb. induction fuel as [|fuel IH]; intros b Hb;
    rewrite mine_loop_unfold, meetsTarget_short by done; [done|].
  apply IH. apply Hdigest.
Qed.

(** X5: with difficulty 0 the test of the loop fails at once: mineBlock
    returns the block with the nonce and the hash it came with, for every
    fuel, and only sets the miner and the reward. *)
Theorem mineBlock_difficulty_0 (fuel : nat) (minerAddress : option string) (b : Block.t) :
  ∃ b', Block.mineBlock fuel 0 minerAddress b = Some b'
    ∧ Block.nonce b' = Block.nonce b ∧ Block.hash b' = Block.hash b
    ∧ Block.miner b' = minerAddress
    ∧ Block.reward b' = (dec 10 1 + sum_fees (Block.transactions b))%Qc.
Proof.
  eexists. unfold Block.mineBlock. rewrite mine_loop_unfold.
  assert (meetsTarget 0 (Block.hash b) = true) as ->.
  { unfold meetsTarget. by destruct (Block.hash b). }
  split; [done|]. repeat split; try done. simpl.
  by rewrite <- calculateReward_sum.
Qed.

End SearchFacts.

Lemma mineBlock_first_nonce_witness :
  ∃ b', @Block.mineBlock Demo.crypto 10 4 (Some "alice") (@Block.new Demo.crypto 2000 [] "9f86d081")
        = Some b'
    ∧ ∃ k, k ≤ 10
        ∧ Block.nonce b' = (0 + N.of_nat k)%N
        ∧ Block.hash b'
          = Block.hash (@iterate_candidate Demo.crypto k (@Block.new Demo.crypto 2000 [] "9f86d081"))
        ∧ meetsTarget 4 (Block.hash b') = true
        ∧ ∀ j, j < k →
            meetsTarget 4
              (Block.hash (@iterate_candidate Demo.crypto j
                             (@Block.new Demo.crypto 2000 [] "9f86d081"))) = false.
Proof.
  eexists. split; [vm_compute; reflexivity|].
  apply (@mineBlock_first_nonce Demo.crypto 10 4 (Some "alice")
           (@Block.new Demo.crypto 2000 [] "9f86d081")).
  vm_compute. reflexivity.
Defined.

Lemma mineBlock_difficulty_beyond_digest_witness :
  @Block.mineBlock Demo.crypto 50 9 (Some "alice") (@Block.new Demo.crypto 2000 [] "9f86d081")
  = None.
Proof.
  apply (@mineBlock_difficulty_beyond_digest Demo.crypto 50 9 (Some "alice")).
  - intros s. unfold sha256_hex. simpl. unfold Demo.digest.
    destruct (Demo.last_char s) as [[[] [] [] [] [] [] [] []]|]; simpl; lia.
  - vm_compute. lia.
Defined.

(** ** Tokens *)

(** Goals about a conjunction of two equations, one of which is known to
    hold or to fail. *)
Ltac pair_solve := first [done | by intros [? ?] | by split].

Section TokenFacts.
Context `{Crypto}.
Import Blockchain.

Lemma getTokenBalance_set_tokens address tokenName m st :
  getTokenBalance address tokenName (set_tokens m st)
  = default (dec 0 1) (default ∅ (m !! address) !! tokenName).
Proof. reflexivity. Qed.

(** What a createToken that returns has found and written. *)
Lemma createToken_Return name symbol totalSupply creator now st st' :
  createToken name symbol totalSupply creator now st = Return tt st' →
  tokenInfo st !! name = None
  ∧ tokenInfo st'
    = <[name := {| Blockchain.name := name; Blockchain.symbol := symbol;
                   Blockchain.totalSupply := totalSupply;
                   Blockchain.creator := creator; createdAt := now |}]> (tokenInfo st)
  ∧ balances st' = balances st ∧ chain st' = chain st
  ∧ pendingTransactions st' = pendingTransactions st.
Proof.
  unfold createToken. destruct (tokenInfo st !! name); [done|]. by intros [= <-].
Qed.

(** X6: createToken throws TokenAlreadyExists, and changes nothing, when
    the name is registered.  Otherwise it returns, registers the name with
    the given supply and creator, and sets the balance of the creator in the
    new token to the total supply, replacing whatever the creator held under
    that name before; no other token balance, no coin balance, no block and
    no pending transaction changes. *)
Theorem createToken_spec (name symbol : string) (totalSupply : Qc)
    (creator : option string) (now : Z) (st : t) :
  match tokenInfo st !! name with
  | Some _ => createToken name symbol totalSupply creator now st = Throw TokenAlreadyExists st
  | None =>
      ∃ st', createToken name symbol totalSupply creator now st = Return tt st'
        ∧ tokenInfo st'
          = <[name := {| Blockchain.name := name; Blockchain.symbol := symbol;
                         Blockchain.totalSupply := totalSupply;
                         Blockchain.creator := creator; createdAt := now |}]> (tokenInfo st)
        ∧ (∀ address tokenName,
             getTokenBalance address tokenName st'
             = if decide (address = creator ∧ tokenName = Some name) then totalSupply
               else getTokenBalance address tokenName st)
        ∧ balances st' = balances st ∧ chain st' = chain st
        ∧ pendingTransactions st' = pendingTransactions st
  end.
Proof.
  unfold createToken. destruct (tokenInfo st !! name); [done|].
  eexists. split; [reflexivity|]. split; [reflexivity|]. split; [|done].
  intros address tokenName. rewrite getTokenBalance_set_tokens. unfold getTokenBalance. simpl.
  destruct (decide (address = creator)) as [->|Hne].
  - rewrite lookup_insert_eq. simpl.
    destruct (decide (tokenName = Some name)) as [->|Hne].
    + rewrite lookup_insert_eq, decide_True by done. done.
    + rewrite lookup_insert_ne, decide_False by pair_solve. done.
  - rewrite lookup_insert_ne, decide_False by pair_solve. done.
Qed.

(** A call never removes a name from [tokenInfo]. *)
Lemma minePendingTransactions_tokenInfo fuel env addr st r :
  minePendingTransactions fuel env addr st = Some r → tokenInfo (state_after r) = tokenInfo st.
Proof.
  unfold minePendingTransactions. fold (rewardTransaction env addr st).
  set (st1 := push_pending (rewardTransaction env addr st) st).
  destruct (getLatestBlock st1); [|by intros [= <-]].
  destruct (Block.mineBlock _ _ _ _) as [block'|]; [|done].
  unfold updateBalances.
  destruct (forEach_transaction _ _) as [[] st3|e st3] eqn:Hupd; intros [= <-].
  - apply forEach_transaction_shell in Hupd. unfold shell in Hupd. by simplify_eq.
  - apply forEach_transaction_Throw_shell in Hupd as [_ Hupd]. unfold shell in Hupd.
    by simplify_eq.
Qed.

Lemma call_tokenInfo (name : string) (st st' : t) :
  call st st' → is_Some (tokenInfo st !! name) → is_Some (tokenInfo st' !! name).
Proof.
  intros Hcall Hname.
  destruct Hcall as [tx st|fuel env addr st r Hmine|block st
                     |name0 symbol0 totalSupply0 creator0 now0 st
                     |tokenName to amount st|tokenName from to amount st|d st].
  - destruct (addTransaction tx st) as [[] s|e s] eqn:Hadd; simpl.
    + by apply addTransaction_Return in Hadd as [-> _].
    + by apply addTransaction_Throw in Hadd as ->.
  - by rewrite (minePendingTransactions_tokenInfo _ _ _ _ _ Hmine).
  - unfold updateBalances.
    destruct (forEach_transaction _ st) as [[] s|e s] eqn:Hupd; simpl.
    + apply forEach_transaction_shell in Hupd. unfold shell in Hupd.
      injection Hupd as _ _ _ _ Hinfo _ _. by rewrite Hinfo.
    + apply forEach_transaction_Throw_shell in Hupd as [_ Hupd]. unfold shell in Hupd.
      injection Hupd as _ _ _ _ Hinfo _ _. by rewrite Hinfo.
  - unfold createToken. destruct (tokenInfo st !! name0) eqn:Hname0; simpl; [done|].
    destruct (decide (name = name0)) as [->|Hne].
    + by rewrite lookup_insert_eq.
    + by rewrite lookup_insert_ne.
  - done.
  - unfold transferToken. by destruct (Qc_ltb _ _).
  - done.
Qed.

Lemma calls_tokenInfo (name : string) (st st' : t) :
  rtc call st st' → is_Some (tokenInfo st !! name) → is_Some (tokenInfo st' !! name).
Proof.
  induction 1 as [st|st st1 st2 Hcall _ IH]; [done|].
  intros Hname. by apply IH, (call_tokenInfo name st).
Qed.

(** X7: once createToken has returned for a name, every later createToken
    with that name throws TokenAlreadyExists and leaves the state as it
    is, whatever symbol, supply and creator it is given and whatever calls
    of addTransaction, minePendingTransactions, updateBalances, createToken,
    mintToken, transferToken and setDifficulty were made in between, with
    whatever arguments, and whether they returned or threw: no method
    removes an entry of tokenInfo. *)
Theorem createToken_once (name symbol symbol' : string) (totalSupply totalSupply' : Qc)
    (creator creator' : option string) (now now' : Z) (st st1 st2 : t) :
  createToken name symbol totalSupply creator now st = Return tt st1 →
  rtc call st1 st2 →
  createToken name symbol' totalSupply' creator' now' st2 = Throw TokenAlreadyExists st2.
Proof.
  intros Hcreate Hcalls. apply createToken_Return in Hcreate as (_ & Hinfo & _).
  assert (is_Some (tokenInfo st2 !! name)) as [info Hname].
  { apply (calls_tokenInfo name st1); [done|]. rewrite Hinfo, lookup_insert_eq. by eexists. }
  unfold createToken. by rewrite Hname.
Qed.

(** X8: mintToken adds the amount to the balance of the receiver in the
    token named and changes no other token balance; the name need not be
    registered. *)
Theorem mintToken_balances (tokenName to : option string) (amount : Qc) (st : t)
    (address tokenName' : option string) :
  getTokenBalance address tokenName' (mintToken tokenName to amount st)
  = if decide (address = to ∧ tokenName' = tokenName)
    then (getTokenBalance address tokenName' st + amount)%Qc
    else getTokenBalance address tokenName' st.
Proof.
  unfold mintToken. rewrite getTokenBalance_set_tokens. unfold getTokenBalance.
  destruct (decide (address = to)) as [->|Hne].
  - rewrite lookup_insert_eq. simpl.
    destruct (decide (tokenName' = tokenName)) as [->|Hne].
    + rewrite lookup_insert_eq, decide_True by done. done.
    + rewrite lookup_insert_ne, decide_False by pair_solve. done.
  - rewrite lookup_insert_ne, decide_False by pair_solve. done.
Qed.

Lemma transferToken_Return tokenName from to amount st st' :
  transferToken tokenName from to amount st = Return tt st' →
  (amount ≤ getTokenBalance from tokenName st)%Qc
  ∧ st' = set_tokens
            (<[to := <[tokenName :=
                         (default (dec 0 1)
                            (match tokens st !! to with
                             | Some m =>
                                 if decide (from = to)
                                 then <[tokenName := (getTokenBalance from tokenName st - amount)%Qc]>
                                        (default ∅ (tokens st !! from))
                                 else m
                             | None => ∅
                             end !! tokenName) + amount)%Qc]>
                     (match tokens st !! to with
                      | Some m =>
                          if decide (from = to)
                          then <[tokenName := (getTokenBalance from tokenName st - amount)%Qc]>
                                 (default ∅ (tokens st !! from))
                          else m
                      | None => ∅
                      end)]>
               (<[from := <[tokenName := (getTokenBalance from tokenName st - amount)%Qc]>
                            (default ∅ (tokens st !! from))]> (tokens st))) st.
Proof.
  unfold transferToken, getTokenBalance.
  destruct (Qc_ltb _ amount) eqn:Hlt; [discriminate|].
  intros [= <-]. split; [by apply Qc_ltb_ge|done].
Qed.

(** X9: a token transfer between two different addresses that returns
    takes the amount from the balance of the sender, which covered it, adds
    it to the balance of the receiver, and changes no other balance of any
    token. *)
Theorem transferToken_between (tokenName from to : option string) (amount : Qc) (st st' : t) :
  from ≠ to →
  transferToken tokenName from to amount st = Return tt st' →
  (amount ≤ getTokenBalance from tokenName st)%Qc
  ∧ ∀ address tokenName',
      getTokenBalance address tokenName' st'
      = if decide (tokenName' = tokenName ∧ address = from)
        then (getTokenBalance address tokenName' st - amount)%Qc
        else if decide (tokenName' = tokenName ∧ address = to)
             then (getTokenBalance address tokenName' st + amount)%Qc
             else getTokenBalance address tokenName' st.
Proof.
  intros Hne Hret. apply transferToken_Return in Hret as [Hle ->]. split; [done|].
  intros address tokenName'. rewrite getTokenBalance_set_tokens.
  destruct (decide (address = to)) as [->|Hto].
  - rewrite lookup_insert_eq. simpl.
    rewrite (decide_False (P := _ ∧ to = from)) by pair_solve.
    destruct (tokens st !! to) as [m|] eqn:Hm; rewrite ?decide_False by done;
      destruct (decide (tokenName' = tokenName)) as [->|Hn];
      rewrite ?lookup_insert_eq, ?lookup_insert_ne, ?decide_True, ?decide_False by pair_solve;
      unfold getTokenBalance; rewrite ?Hm; done.
  - rewrite lookup_insert_ne by done.
    rewrite (decide_False (P := _ ∧ address = to)) by pair_solve.
    destruct (decide (address = from)) as [->|Hfrom].
    + rewrite lookup_insert_eq. simpl.
      destruct (decide (tokenName' = tokenName)) as [->|Hn];
        rewrite ?lookup_insert_eq, ?lookup_insert_ne, ?decide_True, ?decide_False by pair_solve;
        done.
    + rewrite lookup_insert_ne, decide_False by pair_solve. done.
Qed.

(** The balances of the sender after a transfer to itself. *)
Lemma transferToken_self_sender (tokenName from : option string) (amount : Qc) (st st' : t)
    (tokenName' : option string) :
  (0 ≤ amount)%Qc →
  transferToken tokenName from from amount st = Return tt st' →
  getTokenBalance from tokenName' st' = getTokenBalance from tokenName' st.
Proof.
  intros Hpos Hret. apply transferToken_Return in Hret as [Hle ->].
  rewrite getTokenBalance_set_tokens.
  rewrite lookup_insert_eq. simpl.
  unfold getTokenBalance in *.
  destruct (tokens st !! from) as [m|] eqn:Hm; simpl in *.
  - rewrite !decide_True by done.
    destruct (decide (tokenName' = tokenName)) as [->|Hn].
    + rewrite !lookup_insert_eq. simpl. ring.
    + by rewrite !lookup_insert_ne by done.
  - rewrite lookup_empty in *. simpl in *.
    assert (amount = dec 0 1) as -> by (by apply Qcle_antisym).
    destruct (decide (tokenName' = tokenName)) as [->|Hn].
    + rewrite lookup_insert_eq, ?lookup_empty. simpl. unfold dec. ring.
    + by rewrite lookup_insert_ne, ?lookup_empty by done.
Qed.

(** X10: a token transfer of a non-negative amount from an address to
    itself that returns changes no token balance, provided that the
    subtraction is exact: the balance is a double and so is the balance
    less the amount, as with whole amounts.  The two maps are one object,
    and the second write reads what the first one wrote, so that the
    amount is taken and given back; under the two conditions the rounded
    operations of the source give the same (Double_exact_difference_restored).
    When the difference is no double, the source stores the rounded
    difference plus the amount, which can differ from the balance in the
    last place (Double_difference_rounded); the exact operations of
    transferToken do not show that, and the statement leaves it out. *)
Theorem transferToken_to_self (tokenName from : option string) (amount : Qc) (st st' : t) :
  (0 ≤ amount)%Qc →
  Double.representable (getTokenBalance from tokenName st) →
  Double.representable (getTokenBalance from tokenName st - amount) →
  transferToken tokenName from from amount st = Return tt st' →
  ∀ address tokenName', getTokenBalance address tokenName' st' = getTokenBalance address tokenName' st.
Proof.
  intros Hpos _ _ Hret address tokenName'.
  destruct (decide (address = from)) as [->|Hne]; [by eapply transferToken_self_sender|].
  apply transferToken_Return in Hret as [_ ->].
  rewrite getTokenBalance_set_tokens. by rewrite !lookup_insert_ne by done.
Qed.

End TokenFacts.

Section TokenSupply.
Import Blockchain.

Lemma from_option_default_balance (tokenName : option string)
    (x : option (gmap (option string) Qc)) :
  from_option (λ userTokens : gmap (option string) Qc,
                 default (dec 0 1) (userTokens !! tokenName)) (dec 0 1) x
  = default (dec 0 1) (default ∅ x !! tokenName).
Proof. destruct x; simpl; [done|]. by rewrite lookup_empty. Qed.

(** X11: a token transfer of a non-negative amount that returns leaves the
    amount in circulation of every token as it was, also when the sender
    and the receiver are the same address, provided that the two updates
    are exact: the balance of the sender, that balance less the amount and,
    for another receiver, the balance of the receiver plus the amount are
    doubles; then the rounded operations of the source give the same
    (Double_exact_updates_conserve).  When an update is rounded, the source
    changes the sum by the rounding error; the exact operations of
    transferToken do not show that, and the statement leaves it out. *)
Theorem transferToken_conserves (tokenName from to : option string) (amount : Qc)
    (st st' : t) (tokenName' : option string) :
  (0 ≤ amount)%Qc →
  Double.representable (getTokenBalance from tokenName st) →
  Double.representable (getTokenBalance from tokenName st - amount) →
  (from ≠ to → Double.representable (getTokenBalance to tokenName st + amount)) →
  transferToken tokenName from to amount st = Return tt st' →
  circulating tokenName' st' = circulating tokenName' st.
Proof.
  intros Hpos _ _ _ Hret.
  destruct (decide (from = to)) as [<-|Hne].
  - rewrite !circulating_sum.
    pose proof (transferToken_self_sender _ _ _ _ _ tokenName' Hpos Hret) as Hsame.
    apply transferToken_Return in Hret as [_ ->]. simpl.
    rewrite insert_insert_eq, sum_values_insert, from_option_default_balance.
    match goal with
    | |- (_ - _ + default _ (?m !! _))%Qc = _ =>
        rewrite getTokenBalance_set_tokens, insert_insert_eq, lookup_insert_eq in Hsame;
        simpl in Hsame; rewrite Hsame
    end.
    unfold getTokenBalance. ring.
  - apply transferToken_Return in Hret as [_ ->]. rewrite !circulating_sum. simpl.
    match goal with
    | |- context [<[to := <[_ := _]> ?T]> _] => set (toTokens := T)
    end.
    assert (toTokens = default ∅ (tokens st !! to)) as ->.
    { unfold toTokens. destruct (tokens st !! to); [by rewrite decide_False|done]. }
    rewrite !sum_values_insert, (lookup_insert_ne _ from to), !from_option_default_balance
      by done.
    unfold getTokenBalance.
    destruct (decide (tokenName' = tokenName)) as [->|Hn].
    + rewrite !lookup_insert_eq. simpl. ring.
    + rewrite !lookup_insert_ne by done. ring.
Qed.

End TokenSupply.

(** ** Coin balances through a block *)

Section CoinFacts.
Context `{Crypto}.
Import Blockchain.

Lemma getBalance_set_balances address m st :
  getBalance address (set_balances m st) = default (dec 0 1) (m !! address).
Proof. reflexivity. Qed.

(** The balances after a transfer between two different addresses. *)
Lemma applyTransaction_transfer_balances tx st :
  Transaction.type tx = "transfer" →
  Transaction.from tx ≠ Transaction.to tx →
  ∃ st', applyTransaction tx st = Return tt st'
    ∧ tokens st' = tokens st
    ∧ ∀ address,
        getBalance address st'
        = if decide (address = Transaction.from tx)
          then (getBalance address st - Transaction.amount tx - Transaction.fee tx)%Qc
          else if decide (address = Transaction.to tx)
               then (getBalance address st + Transaction.amount tx)%Qc
               else getBalance address st.
Proof.
  intros Hty Hne. unfold applyTransaction. rewrite Hty. simpl.
  eexists. split; [reflexivity|]. split; [reflexivity|].
  intros address. rewrite getBalance_set_balances. unfold getBalance.
  destruct (decide (address = Transaction.from tx)) as [->|Hfrom].
  - by rewrite lookup_insert_ne, lookup_insert_eq by done.
  - destruct (decide (address = Transaction.to tx)) as [->|Hto].
    + by rewrite lookup_insert_eq.
    + by rewrite !lookup_insert_ne by done.
Qed.

Lemma applyTransaction_mining_reward_balances tx st :
  Transaction.type tx = "mining_reward" →
  ∃ st', applyTransaction tx st = Return tt st'
    ∧ tokens st' = tokens st
    ∧ ∀ address,
        getBalance address st'
        = if decide (address = Transaction.to tx)
          then (getBalance address st + Transaction.amount tx)%Qc
          else getBalance address st.
Proof.
  intros Hty.
  destruct (applyTransaction_mining_reward tx st Hty) as (st' & Hret & Htok & Hbal & _).
  exists st'. split; [done|]. split; [done|].
  intros address. unfold getBalance at 1. rewrite Hbal.
  destruct (decide (address = Transaction.to tx)) as [->|Hto].
  - by rewrite lookup_insert_eq.
  - by rewrite lookup_insert_ne by done.
Qed.


Lemma sum_fees_app (txs1 txs2 : list Transaction.t) :
  sum_fees (txs1 ++ txs2) = (sum_fees txs1 + sum_fees txs2)%Qc.
Proof.
  induction txs1 as [|tx txs1 IH]; simpl; [unfold dec; ring|]. rewrite IH. ring.
Qed.

(** The reward field of a committed block. *)
Lemma minePendingTransactions_reward_field fuel env addr st b st' :
  minePendingTransactions fuel env addr st = Some (Return b st') →
  Block.reward b
  = (dec 10 1 + sum_fees (pendingTransactions st)
     + Transaction.calculateFee (miningReward st))%Qc.
Proof.
  intros Hmine.
  pose proof (minePendingTransactions_block _ _ _ _ _ _ Hmine) as (_ & _ & Htxs & _ & Hreward & _).
  rewrite Hreward, Htxs, sum_fees_app. simpl. unfold dec. ring.
Qed.



End CoinFacts.

(** ** What isChainValid checks *)

Section ValidityFacts.
Context `{Crypto}.
Import Blockchain.

Lemma isChainValid_from_cons previousBlock currentBlock rest :
  isChainValid_from previousBlock (currentBlock :: rest) = true
  ↔ linked previousBlock currentBlock ∧ isChainValid_from currentBlock rest = true.
Proof.
  unfold linked. simpl.
  destruct (Block.hasValidTransactions currentBlock); simpl; [|intuition congruence].
  destruct (String.eqb (Block.hash currentBlock) _) eqn:Hh; simpl.
  2:{ apply String.eqb_neq in Hh. intuition congruence. }
  apply String.eqb_eq in Hh.
  destruct (String.eqb (Block.previousHash currentBlock) _) eqn:Hp; simpl.
  2:{ apply String.eqb_neq in Hp. intuition congruence. }
  apply String.eqb_eq in Hp. intuition congruence.
Qed.

Lemma isChainValid_from_iff previousBlock rest :
  isChainValid_from previousBlock rest = true
  ↔ ∀ i p c, (previousBlock :: rest) !! i = Some p → (previousBlock :: rest) !! S i = Some c →
             linked p c.
Proof.
  revert previousBlock. induction rest as [|c0 rest IH]; intros previousBlock.
  - split; [|done]. intros _ [|i] p c ? Hc; simpl in Hc; [done|]. by destruct i.
  - rewrite isChainValid_from_cons, IH. split.
    + intros [Hlink Hrest] [|i] p c Hp Hc; simpl in *.
      * by injection Hp as <-; injection Hc as <-.
      * by apply (Hrest i).
    + intros Hall. split; [by apply (Hall 0)|].
      intros i p c Hp Hc. by apply (Hall (S i)).
Qed.

(** X14: isChainValid returns true exactly when every block after the
    first holds valid transactions only, stores the digest of its own
    content as hash, and names the hash of the block before it as
    previousHash. *)
Theorem isChainValid_iff (st : t) :
  isChainValid st = true
  ↔ ∀ i previousBlock currentBlock,
      chain st !! i = Some previousBlock → chain st !! S i = Some currentBlock →
      Block.hasValidTransactions currentBlock = true
      ∧ Block.hash currentBlock = Block.calculateHash currentBlock
      ∧ Block.previousHash currentBlock = Block.hash previousBlock.
Proof.
  unfold isChainValid. destruct (chain st) as [|genesis rest].
  - split; [|done]. by intros _ i p c ?.
  - apply isChainValid_from_iff.
Qed.

(** X15: isChainValid never looks at the first block beyond its stored
    hash: replacing the genesis block by any block that stores the same
    hash, whatever its transactions, timestamp, nonce or previousHash, does
    not change the answer. *)
Theorem isChainValid_ignores_genesis (genesis genesis' : Block.t) (rest : list Block.t) (st : t) :
  Block.hash genesis' = Block.hash genesis →
  isChainValid (set_chain (genesis' :: rest) st) = isChainValid (set_chain (genesis :: rest) st).
Proof.
  intros Hhash. unfold isChainValid. simpl.
  destruct rest as [|c rest]; [done|]. simpl. by rewrite Hhash.
Qed.

(** One call that returns normally keeps the blocks and appends at most
    one. *)
Lemma step_chain st st' :
  invariant st → step st st' →
  chain st' = chain st ∨ ∃ b, chain st' = chain st ++ [b].
Proof.
  intros [Hal _ _ _ _] Hstep.
  destruct Hstep as [tx st st' Hadd
                    |fuel env addr st b st' Hmine
                    |name0 symbol0 totalSupply0 creator0 now0 st st' Hcreate].
  - left. apply addTransaction_Return in Hadd as [-> _].
    change (chain (accepted tx st)) with (chain (push_pending tx st)).
    by apply push_pending_not_aliased.
  - right. exists b.
    apply minePendingTransactions_Return in Hmine as (latest & s3 & _ & _ & Hupd & ->).
    apply forEach_transaction_shell in Hupd. unfold shell in Hupd.
    injection Hupd as Hchain _ _ _ _ _ _.
    change (chain s3 = chain (push_pending (rewardTransaction env addr st) st) ++ [b]) in Hchain.
    change (chain (emit (blockMined b) (clear_pending s3))) with (chain s3).
    by rewrite Hchain, push_pending_not_aliased.
  - left. unfold createToken in Hcreate. destruct (tokenInfo st !! name0); [done|].
    by simplify_eq.
Qed.

(** X16: the chain only grows at its end: whatever addTransaction,
    minePendingTransactions and createToken calls return normally after a
    reachable state, the blocks of that state are still the first blocks of
    the chain, unchanged and in the same order. *)
Theorem chain_append_only (st st' : t) :
  reachable st → rtc step st st' → chain st `prefix_of` chain st'.
Proof.
  intros Hreach Hsteps. induction Hsteps as [st|st st1 st2 Hstep _ IH]; [done|].
  assert (reachable st1) as Hreach1.
  { destruct Hreach as [now Hnow]. exists now. by eapply rtc_r. }
  etrans; [|by apply IH].
  destruct (step_chain st st1 (reachable_invariant st Hreach) Hstep) as [->|[b ->]]; [done|].
  by apply prefix_app_r.
Qed.

Lemma totalTransactions_app (blocks1 blocks2 : list Block.t) (n : nat) :
  foldl (λ sum block, sum + length (Block.transactions block)) n (blocks1 ++ blocks2)
  = foldl (λ sum block, sum + length (Block.transactions block))
      (foldl (λ sum block, sum + length (Block.transactions block)) n blocks1) blocks2.
Proof. apply foldl_app. Qed.

(** X17: what getStats reports after a call that returns normally on a
    reachable state.  addTransaction adds one to the pending count and
    changes nothing else.  minePendingTransactions adds one block, adds
    the former pending count plus one (the reward transaction) to the
    transactions, and leaves no pending transaction; the difficulty and the
    number of tokens stay.  createToken adds one token and changes nothing
    else. *)
Theorem getStats_after (st : t) :
  reachable st →
  (∀ tx st', addTransaction tx st = Return tt st' →
     getStats st'
     = {| Stats.totalBlocks := Stats.totalBlocks (getStats st);
          Stats.totalTransactions := Stats.totalTransactions (getStats st);
          Stats.totalAddresses := Stats.totalAddresses (getStats st);
          Stats.totalTokens := Stats.totalTokens (getStats st);
          Stats.difficulty := Stats.difficulty (getStats st);
          Stats.pendingTransactions := S (Stats.pendingTransactions (getStats st)) |})
  ∧ (∀ fuel env addr b st', minePendingTransactions fuel env addr st = Some (Return b st') →
       Stats.totalBlocks (getStats st') = S (Stats.totalBlocks (getStats st))
       ∧ Stats.totalTransactions (getStats st')
         = Stats.totalTransactions (getStats st) + Stats.pendingTransactions (getStats st) + 1
       ∧ Stats.pendingTransactions (getStats st') = 0
       ∧ Stats.difficulty (getStats st') = Stats.difficulty (getStats st)
       ∧ Stats.totalTokens (getStats st') = Stats.totalTokens (getStats st))
  ∧ (∀ name symbol totalSupply creator now st',
       createToken name symbol totalSupply creator now st = Return tt st' →
       getStats st'
       = {| Stats.totalBlocks := Stats.totalBlocks (getStats st);
            Stats.totalTransactions := Stats.totalTransactions (getStats st);
            Stats.totalAddresses := Stats.totalAddresses (getStats st);
            Stats.totalTokens := S (Stats.totalTokens (getStats st));
            Stats.difficulty := Stats.difficulty (getStats st);
            Stats.pendingTransactions := Stats.pendingTransactions (getStats st) |}).
Proof.
  intros Hreach. pose proof (reachable_invariant st Hreach) as Hinv.
  destruct (Hinv) as [Hal _ _ _ _]. split; [|split].
  - intros tx st' Hadd. apply addTransaction_Return in Hadd as [-> _].
    unfold getStats, accepted. simpl.
    rewrite Hal, Nat.sub_0_r, take_ge, drop_all, fmap_nil, app_nil_r, length_app by done.
    simpl. f_equal. lia.
  - intros fuel env addr b st' Hmine.
    pose proof (minePendingTransactions_block _ _ _ _ _ _ Hmine)
      as (_ & _ & Htxs & _ & _ & _ & Hpool & Hdiff).
    pose proof (minePendingTransactions_ledgers _ _ _ _ _ _ Hmine) as (_ & _ & _ & _ & Hinfo & _).
    destruct (step_chain st st' Hinv (step_minePendingTransactions _ _ _ _ _ _ Hmine))
      as [Hsame|[b' Hchain]].
    { apply minePendingTransactions_Return in Hmine as (latest & s3 & _ & _ & Hupd & ->).
      apply forEach_transaction_shell in Hupd. unfold shell in Hupd.
      injection Hupd as Hchain _ _ _ _ _ _.
      change (chain (emit (blockMined b) (clear_pending s3))) with (chain s3) in Hsame.
      change (chain s3 = chain (push_pending (rewardTransaction env addr st) st) ++ [b]) in Hchain.
      rewrite Hchain, push_pending_not_aliased in Hsame by done.
      apply (f_equal length) in Hsame. rewrite length_app in Hsame. simpl in Hsame. lia. }
    assert (b' = b) as ->.
    { apply minePendingTransactions_Return in Hmine as (latest & s3 & _ & _ & Hupd & ->).
      apply forEach_transaction_shell in Hupd. unfold shell in Hupd.
      injection Hupd as Hchain' _ _ _ _ _ _.
      change (chain (emit (blockMined b) (clear_pending s3))) with (chain s3) in Hchain.
      change (chain s3 = chain (push_pending (rewardTransaction env addr st) st) ++ [b]) in Hchain'.
      rewrite Hchain', push_pending_not_aliased in Hchain by done.
      by apply app_inj_tail in Hchain as [_ ->]. }
    unfold getStats. simpl. rewrite Hchain, Hpool, Hdiff, Hinfo, length_app, totalTransactions_app.
    simpl. rewrite Htxs, length_app. simpl. repeat split; lia.
  - intros name symbol totalSupply creator now st' Hcreate.
    pose proof (createToken_Return _ _ _ _ _ _ _ Hcreate) as (Hname & Hinfo & Hbal & Hchain & Hpool).
    unfold getStats. rewrite Hinfo, Hbal, Hchain, Hpool, map_size_insert_None by done.
    f_equal. unfold createToken in Hcreate. rewrite Hname in Hcreate. by simplify_eq.
Qed.

End ValidityFacts.

(** ** Searching the chain *)

Section QueryFacts.
Context `{Crypto}.
Import Blockchain.

Lemma searchTransaction_from_spec (height : nat) (blocks : list Block.t) (txId : string) :
  match searchTransaction_from height blocks txId with
  | Some found =>
      ∃ i block,
        blocks !! i = Some block
        ∧ Found.height (Found.block_of found) = height + i
        ∧ Found.hash (Found.block_of found) = Block.hash block
        ∧ Found.timestamp (Found.block_of found) = Block.timestamp block
        ∧ Found.transaction found ∈ Block.transactions block
        ∧ Transaction.id (Found.transaction found) = txId
        ∧ ∀ j earlier tx, j < i → blocks !! j = Some earlier →
                          tx ∈ Block.transactions earlier → Transaction.id tx ≠ txId
  | None =>
      ∀ block tx, block ∈ blocks → tx ∈ Block.transactions block → Transaction.id tx ≠ txId
  end.
Proof.
  revert height. induction blocks as [|block rest IH]; intros height; simpl.
  - intros block tx Hin. by apply elem_of_nil in Hin.
  - destruct (List.find _ (Block.transactions block)) as [tx|] eqn:Hfind.
    + apply find_some in Hfind as [Hin Hid]. apply String.eqb_eq in Hid.
      exists 0, block. simpl. repeat split; try done; [by apply list_elem_of_In|].
      intros; lia.
    + pose proof (find_none _ _ Hfind) as Hnone.
      assert (∀ tx, tx ∈ Block.transactions block → Transaction.id tx ≠ txId) as Hhere.
      { intros tx Hin. apply list_elem_of_In, Hnone in Hin. by apply String.eqb_neq. }
      specialize (IH (S height)).
      destruct (searchTransaction_from (S height) rest txId) as [found|].
      * destruct IH as (i & blk & Hi & Hheight & Hhash & Hts & Hin & Hid & Hfirst).
        exists (S i), blk. simpl. repeat split; try done; [lia|].
        intros [|j] earlier tx Hj Hearlier Htx.
        -- injection Hearlier as <-. by apply Hhere.
        -- apply (Hfirst j earlier tx); [lia|done..].
      * intros blk tx Hin Htx. apply elem_of_cons in Hin as [->|Hin]; [by apply Hhere|].
        by apply (IH blk tx).
Qed.

(** X18: searchTransaction returns null exactly when no block of the
    chain holds a transaction with the identifier.  Otherwise it returns a
    transaction with that identifier together with the hash, the timestamp
    and the index of the block that holds it, and no block before that one
    holds a transaction with the identifier.  The pending pool is not
    searched. *)
Theorem searchTransaction_spec (txId : string) (st : t) :
  match searchTransaction txId st with
  | Some found =>
      ∃ block,
        chain st !! Found.height (Found.block_of found) = Some block
        ∧ Found.hash (Found.block_of found) = Block.hash block
        ∧ Found.timestamp (Found.block_of found) = Block.timestamp block
        ∧ Found.transaction found ∈ Block.transactions block
        ∧ Transaction.id (Found.transaction found) = txId
        ∧ ∀ j earlier tx, j < Found.height (Found.block_of found) →
                          chain st !! j = Some earlier →
                          tx ∈ Block.transactions earlier → Transaction.id tx ≠ txId
  | None =>
      ∀ block tx, block ∈ chain st → tx ∈ Block.transactions block → Transaction.id tx ≠ txId
  end.
Proof.
  unfold searchTransaction.
  pose proof (searchTransaction_from_spec 0 (chain st) txId) as Hspec.
  destruct (searchTransaction_from 0 (chain st) txId) as [found|]; [|done].
  destruct Hspec as (i & block & Hi & Hheight & Hrest). simpl in Hheight.
  rewrite Hheight. by exists block.
Qed.

(** X19: after minePendingTransactions has returned on a reachable state,
    searchTransaction finds a transaction under the identifier of every
    transaction that was pending and under the identifier of the reward
    transaction, in the new block or in an earlier one. *)
Theorem searchTransaction_after_block (fuel : nat) (env : MineEnv) (addr : option string)
    (st : t) (b : Block.t) (st' : t) (tx : Transaction.t) :
  reachable st →
  minePendingTransactions fuel env addr st = Some (Return b st') →
  tx ∈ pendingTransactions st ∨ tx = rewardTransaction env addr st →
  ∃ found, searchTransaction (Transaction.id tx) st' = Some found
    ∧ Transaction.id (Found.transaction found) = Transaction.id tx
    ∧ Found.height (Found.block_of found) ≤ length (chain st).
Proof.
  intros Hreach Hmine Htx.
  pose proof (reachable_invariant st Hreach) as Hinv.
  pose proof (minePendingTransactions_block _ _ _ _ _ _ Hmine) as (_ & _ & Htxs & _).
  assert (chain st' = chain st ++ [b]) as Hchain.
  { destruct Hinv as [Hal _ _ _ _].
    apply minePendingTransactions_Return in Hmine as (latest & s3 & _ & _ & Hupd & ->).
    apply forEach_transaction_shell in Hupd. unfold shell in Hupd.
    injection Hupd as Hchain _ _ _ _ _ _.
    change (chain s3 = chain (push_pending (rewardTransaction env addr st) st) ++ [b]) in Hchain.
    change (chain (emit (blockMined b) (clear_pending s3))) with (chain s3).
    by rewrite Hchain, push_pending_not_aliased. }
  assert (tx ∈ Block.transactions b) as Hin.
  { rewrite Htxs, elem_of_app, list_elem_of_singleton. done. }
  unfold searchTransaction.
  pose proof (searchTransaction_from_spec 0 (chain st') (Transaction.id tx)) as Hspec.
  destruct (searchTransaction_from 0 (chain st') (Transaction.id tx)) as [found|].
  - destruct Hspec as (i & block & Hblock & Hheight & _ & _ & _ & Hid & _).
    exists found. split; [done|]. split; [done|]. simpl in Hheight. rewrite Hheight.
    apply lookup_lt_Some in Hblock. rewrite Hchain, length_app in Hblock. simpl in Hblock. lia.
  - exfalso. apply (Hspec b tx); [|done..]. rewrite Hchain, elem_of_app, list_elem_of_singleton.
    by right.
Qed.

Lemma array_index_Qc_of_Z (z : Z) :
  array_index (Qc_of_Z z) = if decide (0 ≤ z)%Z then Some (Z.to_nat z) else None.
Proof.
  unfold array_index. simpl.
  destruct (decide (0 ≤ z)%Z) as [Hz|Hz].
  - by apply Z.leb_le in Hz as ->.
  - by apply Z.leb_nle in Hz as ->.
Qed.

Lemma array_index_Some (n : Qc) (i : nat) :
  array_index n = Some i → n = Qc_of_Z (Z.of_nat i).
Proof.
  unfold array_index.
  destruct (Qden (this n) =? 1)%positive eqn:Hden; [|done].
  destruct (0 <=? Qnum (this n))%Z eqn:Hnum; [|done]. simpl. intros [= <-].
  apply Pos.eqb_eq in Hden. apply Z.leb_le in Hnum.
  apply Qc_is_canon. simpl. rewrite Z2Nat.id by done.
  destruct n as [[num den] Hcanon]. simpl in *. by subst den.
Qed.

(** X20: searchBlock with a number returns a block exactly when the
    number is an integer from 0 up that is an index of the chain, and then
    it is the block at that index; for every other number (a negative one,
    a fraction, an index past the end) it returns null. *)
Theorem searchBlock_height (n : Qc) (st : t) (block : Block.t) :
  searchBlock (Height n) st = Some block
  ↔ ∃ i : nat, n = Qc_of_Z (Z.of_nat i) ∧ chain st !! i = Some block.
Proof.
  unfold searchBlock. split.
  - destruct (array_index n) as [i|] eqn:Hidx; [|done].
    intros Hblock. exists i. split; [by apply array_index_Some|done].
  - intros (i & -> & Hblock).
    rewrite array_index_Qc_of_Z, decide_True, Nat2Z.id by lia. done.
Qed.

(** X21: searchBlock with a string returns null exactly when no block of
    the chain stores that hash; otherwise it returns the first block of the
    chain that stores it.  So a block of the chain is found under its own
    hash unless an earlier block stores the same hash. *)
Theorem searchBlock_hash (h : string) (st : t) :
  match searchBlock (Hash h) st with
  | Some block =>
      Block.hash block = h
      ∧ ∃ i, chain st !! i = Some block
          ∧ ∀ j earlier, j < i → chain st !! j = Some earlier → Block.hash earlier ≠ h
  | None => ∀ block, block ∈ chain st → Block.hash block ≠ h
  end.
Proof.
  unfold searchBlock. induction (chain st) as [|block rest IH]; simpl.
  - intros block Hin. by apply elem_of_nil in Hin.
  - destruct (String.eqb (Block.hash block) h) eqn:Hh.
    + apply String.eqb_eq in Hh. split; [done|]. exists 0. split; [done|]. intros; lia.
    + apply String.eqb_neq in Hh. destruct (List.find _ rest) as [found|].
      * destruct IH as [Hfound (i & Hi & Hfirst)]. split; [done|].
        exists (S i). split; [done|]. intros [|j] earlier Hj Hearlier.
        -- by injection Hearlier as <-.
        -- apply (Hfirst j); [lia|done].
      * intros blk Hin. apply elem_of_cons in Hin as [->|Hin]; [done|by apply IH].
Qed.

End QueryFacts.

(** ** The transactions of an address *)

Section AddressFacts.
Import Blockchain.

Lemma insert_newest_first_Permutation (e : Entry.t) (l : list Entry.t) :
  insert_newest_first e l ≡ₚ e :: l.
Proof.
  induction l as [|e' l IH]; simpl; [done|].
  destruct (_ <=? _)%Z; [done|]. rewrite IH. apply Permutation_swap.
Qed.

Lemma sort_newest_first_Permutation (l : list Entry.t) : sort_newest_first l ≡ₚ l.
Proof.
  induction l as [|e l IH]; simpl; [done|].
  by rewrite insert_newest_first_Permutation, IH.
Qed.

Lemma insert_newest_first_sorted (e : Entry.t) (l : list Entry.t) :
  StronglySorted (λ a b, (entry_time b ≤ entry_time a)%Z) l →
  StronglySorted (λ a b, (entry_time b ≤ entry_time a)%Z) (insert_newest_first e l).
Proof.
  induction 1 as [|e' l Hsorted IH Hall]; simpl.
  - by repeat constructor.
  - fold (entry_time e') (entry_time e).
    destruct (entry_time e' <=? entry_time e)%Z eqn:Hle.
    + apply Z.leb_le in Hle. constructor; [by constructor|].
      constructor; [done|]. eapply Forall_impl; [exact Hall|]. simpl. intros; lia.
    + apply Z.leb_gt in Hle. constructor; [done|].
      rewrite insert_newest_first_Permutation. constructor; [lia|done].
Qed.

Lemma sort_newest_first_sorted (l : list Entry.t) :
  StronglySorted (λ a b, (entry_time b ≤ entry_time a)%Z) (sort_newest_first l).
Proof.
  induction l as [|e l IH]; simpl; [constructor|]. by apply insert_newest_first_sorted.
Qed.

Lemma StronglySorted_lookup_lt {A} (R : A → A → Prop) (l : list A) (i j : nat) (a b : A) :
  StronglySorted R l → i < j → l !! i = Some a → l !! j = Some b → R a b.
Proof.
  intros Hsorted. revert i j. induction Hsorted as [|x l _ IH Hall]; intros i j Hij Ha Hb.
  - by rewrite lookup_nil in Ha.
  - destruct j as [|j]; [lia|]. simpl in Hb. destruct i as [|i].
    + injection Ha as <-. rewrite Forall_forall in Hall. apply Hall.
      by eapply list_elem_of_lookup_2.
    + simpl in Ha. apply (IH i j); [lia|done..].
Qed.

Lemma insert_newest_first_filter (t : Z) (e : Entry.t) (l : list Entry.t) :
  List.filter (λ x, (entry_time x =? t)%Z) (insert_newest_first e l)
  = List.filter (λ x, (entry_time x =? t)%Z) (e :: l).
Proof.
  induction l as [|e' l IH]; simpl; [done|].
  fold (entry_time e') (entry_time e).
  destruct (entry_time e' <=? entry_time e)%Z eqn:Hle; [done|]. apply Z.leb_gt in Hle.
  simpl. rewrite IH. simpl.
  destruct (entry_time e =? t)%Z eqn:He; [|done]. apply Z.eqb_eq in He.
  assert ((entry_time e' =? t)%Z = false) as ->; [|done]. apply Z.eqb_neq. lia.
Qed.

Lemma sort_newest_first_stable (t : Z) (l : list Entry.t) :
  List.filter (λ x, (entry_time x =? t)%Z) (sort_newest_first l)
  = List.filter (λ x, (entry_time x =? t)%Z) l.
Proof.
  induction l as [|e l IH]; simpl; [done|].
  rewrite insert_newest_first_filter. simpl. by rewrite IH.
Qed.

Lemma elem_of_collect_address_transactions (address : option string) (blockIndex : nat)
    (blocks : list Block.t) (e : Entry.t) :
  e ∈ collect_address_transactions address blockIndex blocks
  ↔ ∃ i block,
      blocks !! i = Some block
      ∧ Entry.tx e ∈ Block.transactions block
      ∧ (Transaction.from (Entry.tx e) = address ∨ Transaction.to (Entry.tx e) = address)
      ∧ Entry.blockHeight e = blockIndex + i
      ∧ Entry.blockHash e = Block.hash block
      ∧ Entry.blockTimestamp e = Block.timestamp block.
Proof.
  revert blockIndex. induction blocks as [|block rest IH]; intros blockIndex; simpl.
  - split; [by intros ?%elem_of_nil|]. by intros (i & blk & Hi & _).
  - rewrite elem_of_app, list_elem_of_fmap, IH. split.
    + intros [(tx & -> & Hin)|(i & blk & Hi & Hin & Haddr & Hh & Hrest)].
      * apply list_elem_of_In, filter_In in Hin as [Hin Haddr].
        exists 0, block. simpl. repeat split; try done; [by apply list_elem_of_In|].
        unfold same_address in Haddr.
        apply orb_true_iff in Haddr as [Ha|Ha]; apply bool_decide_eq_true in Ha; auto.
      * destruct Hrest. exists (S i), blk. simpl. repeat split; try done. lia.
    + intros ([|i] & blk & Hi & Hin & Haddr & Hh & Hhash & Hts); simpl in Hi.
      * injection Hi as <-. left. exists (Entry.tx e). split.
        { destruct e. simpl in *. f_equal; [lia|done..]. }
        apply list_elem_of_In, filter_In. split; [by apply list_elem_of_In|].
        unfold same_address. apply orb_true_iff.
        destruct Haddr as [Ha|Ha]; [left|right]; by apply bool_decide_eq_true.
      * right. exists i, blk. repeat split; try done. lia.
Qed.

(** X22: getAddressTransactions returns its entries newest first: an entry
    never has a greater timestamp than an entry before it, and entries with
    the same timestamp stand in the order of the chain, earlier block first
    and, within a block, in the order of the block. *)
Theorem getAddressTransactions_newest_first (address : option string) (st : t) :
  (∀ i j a b, i < j →
     getAddressTransactions address st !! i = Some a →
     getAddressTransactions address st !! j = Some b →
     (Transaction.timestamp (Entry.tx b) ≤ Transaction.timestamp (Entry.tx a))%Z)
  ∧ ∀ t, List.filter (λ e, (Transaction.timestamp (Entry.tx e) =? t)%Z)
           (getAddressTransactions address st)
         = List.filter (λ e, (Transaction.timestamp (Entry.tx e) =? t)%Z)
             (collect_address_transactions address 0 (chain st)).
Proof.
  split.
  - intros i j a b Hij Ha Hb.
    unfold getAddressTransactions in Ha, Hb.
    exact (StronglySorted_lookup_lt (λ a b, (entry_time b ≤ entry_time a)%Z) _ i j a b
             (sort_newest_first_sorted (collect_address_transactions address 0 (chain st)))
             Hij Ha Hb).
  - intros t. apply sort_newest_first_stable.
Qed.

(** X23: the entries that getAddressTransactions returns are exactly the
    transactions of the blocks of the chain whose sender or receiver is the
    address, each with the index, the hash and the timestamp of its block;
    pending transactions are not among them. *)
Theorem getAddressTransactions_content (address : option string) (st : t) (e : Entry.t) :
  e ∈ getAddressTransactions address st
  ↔ ∃ block,
      chain st !! Entry.blockHeight e = Some block
      ∧ Entry.tx e ∈ Block.transactions block
      ∧ (Transaction.from (Entry.tx e) = address ∨ Transaction.to (Entry.tx e) = address)
      ∧ Entry.blockHash e = Block.hash block
      ∧ Entry.blockTimestamp e = Block.timestamp block.
Proof.
  unfold getAddressTransactions.
  rewrite sort_newest_first_Permutation, elem_of_collect_address_transactions. split.
  - intros (i & block & Hi & Hin & Haddr & Hh & Hrest). simpl in Hh. rewrite Hh. by exists block.
  - intros (block & Hi & Hin & Haddr & Hrest).
    exists (Entry.blockHeight e), block. destruct Hrest. repeat split; done.
Qed.

End AddressFacts.

(** ** A pool that cannot be committed *)

Section StuckFacts.
Context `{Crypto}.
Import Blockchain.

Lemma last_is_Some {A} (l : list A) : l ≠ [] → ∃ x, last l = Some x.
Proof.
  intros Hne. destruct l as [|x l] using rev_ind; [done|]. exists x. apply last_snoc.
Qed.

Lemma push_pending_nonempty tx st : chain st ≠ [] → chain (push_pending tx st) ≠ [].
Proof.
  intros Hne Hnil. apply (f_equal length) in Hnil. rewrite push_pending_length in Hnil.
  by destruct (chain st).
Qed.

Lemma stuck_minePendingTransactions fuel env addr st :
  stuck st →
  minePendingTransactions fuel env addr st = None
  ∨ ∃ st', minePendingTransactions fuel env addr st = Some (Throw InsufficientTokenBalance st')
      ∧ stuck st'
      ∧ length (chain st') = S (length (chain st))
      ∧ pendingTransactions st' = pendingTransactions st ++ [rewardTransaction env addr st]
      ∧ balances st' = balances st
      ∧ tokens st' = tokens st.
Proof.
  intros (Hchain & tx & post & Hpool & Hty & Hlt).
  set (reward := rewardTransaction env addr st).
  destruct (last_is_Some _ (push_pending_nonempty reward st Hchain)) as [latest Hlatest].
  destruct (Block.mineBlock fuel (difficulty st) addr
              (Block.new (block_now env) (pendingTransactions st ++ [reward])
                 (Block.hash latest))) as [b|] eqn:Hpow.
  2:{ left. by apply (minePendingTransactions_no_proof_of_work fuel env addr st latest). }
  right. set (s0 := push_block b (push_pending reward st)).
  assert (forEach_transaction (pendingTransactions st ++ [reward]) s0
          = Throw InsufficientTokenBalance s0) as Hupd.
  { rewrite Hpool. cbn [app]. rewrite forEach_transaction_cons.
    rewrite applyTransaction_transfer_token by done. unfold transferToken.
    change (tokens s0) with (tokens st).
    apply Qc_ltb_lt in Hlt. unfold getTokenBalance in Hlt. by rewrite Hlt. }
  exists s0. split.
  { by apply (minePendingTransactions_Throw fuel env addr st latest b). }
  split; [|split; [|done]].
  - split.
    + unfold s0. change (chain (push_block b ?s)) with (chain s ++ [b]).
      intros [_ [=]]%app_eq_nil.
    + exists tx, (post ++ [reward]). split; [|done].
      change (pendingTransactions s0) with (pendingTransactions st ++ [reward]).
      by rewrite Hpool.
  - unfold s0. change (chain (push_block b ?s)) with (chain s ++ [b]).
    rewrite length_app, push_pending_length. simpl. lia.
Qed.

(** X24: while the first pending transaction is a token transfer that the
    sender's token balance does not cover, minePendingTransactions never
    returns a block: when the proof-of-work search ends it throws
    InsufficientTokenBalance with one more block on the chain, one more
    reward transaction in the pool and the balances as they were, and the
    pool is as blocked as before; accepting more transactions does not
    unblock it either. *)
Theorem stuck_pool_stays_stuck (st : t) :
  stuck st →
  (∀ fuel env addr,
     minePendingTransactions fuel env addr st = None
     ∨ ∃ st', minePendingTransactions fuel env addr st
              = Some (Throw InsufficientTokenBalance st')
         ∧ stuck st'
         ∧ length (chain st') = S (length (chain st))
         ∧ pendingTransactions st' = pendingTransactions st ++ [rewardTransaction env addr st]
         ∧ balances st' = balances st
         ∧ tokens st' = tokens st)
  ∧ (∀ tx st', addTransaction tx st = Return tt st' → stuck st').
Proof.
  intros Hstuck. split.
  - intros fuel env addr. by apply stuck_minePendingTransactions.
  - intros tx' st' Hadd. apply addTransaction_Return in Hadd as [-> _].
    destruct Hstuck as (Hchain & tx & post & Hpool & Hty & Hlt). split.
    + change (chain (accepted tx' st)) with (chain (push_pending tx' st)).
      by apply push_pending_nonempty.
    + exists tx, (post ++ [tx']). split; [|done].
      change (pendingTransactions (accepted tx' st)) with (pendingTransactions st ++ [tx']).
      by rewrite Hpool.
Qed.

(** X25: a running miner never gets past such a pool.  Each pass of its
    loop that ends catches the error and appends one block to the chain and
    one reward transaction to the pool; after n passes the chain and the
    pool are n longer, no balance has changed, the miner has counted no
    block, and the pool is still blocked. *)
Theorem miner_livelock (n : nat) (m m' : Miner.t) (st st' : t) :
  Miner.isRunning m = true →
  stuck st →
  miner_passes n m st m' st' →
  m' = m
  ∧ stuck st'
  ∧ length (chain st') = length (chain st) + n
  ∧ length (pendingTransactions st') = length (pendingTransactions st) + n
  ∧ balances st' = balances st
  ∧ tokens st' = tokens st.
Proof.
  intros Hrun Hstuck Hpasses. induction Hpasses as [m st|n fuel t0 t1 env m st m1 st1 ms m2 st2 Hpass _ IH].
  - split; [done|]. split; [done|]. split; [lia|]. split; [lia|]. done.
  - unfold Miner.miningLoop_pass in Hpass. rewrite Hrun in Hpass. simpl in Hpass.
    pose proof Hstuck as (_ & tx & post & Hpool & _).
    rewrite Hpool in Hpass. simpl in Hpass.
    destruct (stuck_minePendingTransactions fuel env (Miner.minerAddress m) st Hstuck)
      as [Hnone|(s1 & Hthrow & Hstuck1 & Hlen & Hpool1 & Hbal & Htok)].
    { by rewrite Hnone in Hpass. }
    rewrite Hthrow in Hpass. injection Hpass as <- <- _.
    destruct (IH Hrun Hstuck1) as (-> & Hstuck2 & Hlen2 & Hpool2 & Hbal2 & Htok2).
    split; [done|]. split; [done|]. split; [lia|]. split.
    + rewrite Hpool2, Hpool1, length_app. simpl. lia.
    + split; congruence.
Qed.

End StuckFacts.

(** ** What a miner counts *)

Section MinerFacts.
Context `{Crypto}.
Import Blockchain.

Lemma forEach_transfers_bystander (address : option string) (txs : list Transaction.t) (st : t) :
  Forall (λ tx, Transaction.type tx = "transfer" ∧ Transaction.from tx ≠ Transaction.to tx
                ∧ Transaction.from tx ≠ address ∧ Transaction.to tx ≠ address) txs →
  ∃ st', forEach_transaction txs st = Return tt st'
    ∧ getBalance address st' = getBalance address st.
Proof.
  intros Hall. revert st. induction Hall as [|tx txs (Hty & Hne & Hfrom & Hto) _ IH]; intros st.
  - by exists st.
  - rewrite forEach_transaction_cons.
    destruct (applyTransaction_transfer_balances tx st Hty Hne) as (st1 & -> & _ & Hbal).
    destruct (IH st1) as (st' & Hrest & Hsame). exists st'. split; [done|].
    by rewrite Hsame, Hbal, !decide_False.
Qed.

(** A pool that the state applier accepts is committed whenever the
    proof-of-work search ends. *)
Lemma minePendingTransactions_commits fuel env addr st st3 r :
  reachable st →
  forEach_transaction (pendingTransactions st ++ [rewardTransaction env addr st]) st
    = Return tt st3 →
  minePendingTransactions fuel env addr st = Some r →
  ∃ b st', r = Return b st'.
Proof.
  intros Hreach Hupd Hmine.
  destruct (reachable_latest st Hreach) as [Hal [latest Hlatest]].
  set (reward := rewardTransaction env addr st) in *.
  assert (getLatestBlock (push_pending reward st) = Some latest) as Hlatest1.
  { unfold getLatestBlock in *. by rewrite push_pending_not_aliased. }
  destruct (Block.mineBlock fuel (difficulty st) addr
              (Block.new (block_now env) (pendingTransactions st ++ [reward])
                 (Block.hash latest))) as [b|] eqn:Hpow.
  2:{ by rewrite (minePendingTransactions_no_proof_of_work _ _ _ _ _ Hlatest1 Hpow) in Hmine. }
  set (s0 := push_block b (push_pending reward st)).
  pose proof (forEach_transaction_ledgers (pendingTransactions st ++ [reward]) s0 st
                eq_refl eq_refl) as Hled.
  rewrite Hupd in Hled.
  destruct (forEach_transaction (pendingTransactions st ++ [reward]) s0) as [[] s3|e s3] eqn:Hupd0;
    [|done].
  revert Hmine. unfold minePendingTransactions. fold (rewardTransaction env addr st).
  change (rewardTransaction env addr st) with reward. rewrite Hlatest1.
  change (pendingTransactions (push_pending reward st)) with (pendingTransactions st ++ [reward]).
  change (difficulty (push_pending reward st)) with (difficulty st).
  rewrite Hpow. unfold updateBalances.
  pose proof (mineBlock_spec _ _ _ _ _ Hpow) as (_ & _ & Htxs & _).
  rewrite Htxs. simpl. fold s0. rewrite Hupd0. intros [= <-]. eauto.
Qed.

(** X26: a pass of a running miner over a pool of transfers between other
    addresses commits the block and then sleeps 100 ms.  The miner counts
    one more block and adds the reward field of the block, 10 plus the fees
    of the pool plus the fee of the reward transaction, to its total
    reward, while its balance on the chain grows by the mining reward
    only. *)
Theorem miner_pass_counts_block_reward (fuel : nat) (startTime endTime : Z) (env : MineEnv)
    (m m' : Miner.t) (st st' : t) (pass : Miner.Pass) :
  reachable st →
  Miner.isRunning m = true →
  pendingTransactions st ≠ [] →
  Forall (λ tx, Transaction.type tx = "transfer" ∧ Transaction.from tx ≠ Transaction.to tx
                ∧ Transaction.from tx ≠ Miner.minerAddress m
                ∧ Transaction.to tx ≠ Miner.minerAddress m) (pendingTransactions st) →
  Miner.miningLoop_pass fuel startTime endTime env m st = Some (m', st', pass) →
  pass = Miner.Sleep 100
  ∧ Miner.blocksMinedTotal (Miner.stats m') = S (Miner.blocksMinedTotal (Miner.stats m))
  ∧ Miner.totalReward (Miner.stats m')
    = (Miner.totalReward (Miner.stats m)
       + (dec 10 1 + sum_fees (pendingTransactions st)
          + Transaction.calculateFee (miningReward st)))%Qc
  ∧ Miner.getBalance m' st' = (Miner.getBalance m st + miningReward st)%Qc
  ∧ pendingTransactions st' = [].
Proof.
  intros Hreach Hrun Hpool Hall Hpass.
  set (addr := Miner.minerAddress m) in *.
  assert (Forall (λ tx, Transaction.type tx = "transfer"
                        ∧ Transaction.from tx ≠ Transaction.to tx) (pendingTransactions st))
    as Hall'.
  { eapply Forall_impl; [exact Hall|]. by intros tx (? & ? & _). }
  destruct (forEach_transfers_bystander addr _ st Hall) as (st1 & Hpool1 & Hbal1).
  destruct (applyTransaction_mining_reward_balances (rewardTransaction env addr st) st1 eq_refl)
    as (st2 & Hrew & _ & Hbal2).
  assert (forEach_transaction (pendingTransactions st ++ [rewardTransaction env addr st]) st
          = Return tt st2) as Hupd.
  { by rewrite forEach_transaction_app, Hpool1, forEach_transaction_cons, Hrew. }
  unfold Miner.miningLoop_pass in Hpass. rewrite Hrun in Hpass. simpl in Hpass.
  assert ((length (pendingTransactions st) =? 0) = false) as Hlen.
  { apply Nat.eqb_neq. by destruct (pendingTransactions st). }
  rewrite Hlen in Hpass. fold addr in Hpass.
  destruct (minePendingTransactions fuel env addr st) as [r|] eqn:Hmine; [|done].
  destruct (minePendingTransactions_commits _ _ _ _ _ _ Hreach Hupd Hmine) as (b & s' & ->).
  injection Hpass as <- <- <-.
  pose proof (minePendingTransactions_block _ _ _ _ _ _ Hmine) as (_ & _ & _ & _ & _ & _ & Hempty & _).
  pose proof (minePendingTransactions_reward_field _ _ _ _ _ _ Hmine) as Hreward.
  pose proof (minePendingTransactions_ledgers _ _ _ _ _ _ Hmine) as (s3 & Hupd' & Hb & _).
  rewrite Hupd in Hupd'. injection Hupd' as <-.
  split; [done|]. split; [done|]. split; [by simpl; rewrite Hreward|]. split; [|done].
  unfold Miner.getBalance. simpl. fold addr.
  unfold getBalance at 1. rewrite Hb. fold (getBalance addr st2).
  by rewrite Hbal2, decide_True, Hbal1.
Qed.

Lemma js_add_Finite (x y : JSNumber) (q : Qc) :
  js_add x y = Finite q → ∃ a b, x = Finite a ∧ y = Finite b ∧ q = (a + b)%Qc.
Proof. destruct x, y; simpl; try done. intros [= <-]. eauto. Qed.

Lemma js_div_Finite (a b q : Qc) : js_div a b = Finite q → b ≠ 0%Qc ∧ q = (a / b)%Qc.
Proof.
  unfold js_div. destruct (decide (b = 0)%Qc); [by repeat case_decide|]. by intros [= <-].
Qed.

(** X27: the total hash rate of a miner is finite after updateStats only
    if it was finite before and the mining took a time other than 0 ms, and
    then it has grown by the nonce of the block divided by the seconds
    taken.  A block mined within one millisecond makes the total Infinity
    or NaN, and no later block makes it finite again. *)
Theorem updateStats_finite_hashrate (block : Block.t) (miningTime : Z) (m : Miner.t) (q : Qc) :
  Miner.totalHashrate (Miner.stats (Miner.updateStats block miningTime m)) = Finite q →
  miningTime ≠ 0%Z
  ∧ ∃ q0, Miner.totalHashrate (Miner.stats m) = Finite q0
      ∧ q = (q0 + Q2Qc (inject_Z (Z.of_N (Block.nonce block)))
                  / (Q2Qc (inject_Z miningTime) / dec 1000 1))%Qc.
Proof.
  simpl. intros Hfin. apply js_add_Finite in Hfin as (q0 & h & Hq0 & Hh & ->).
  apply js_div_Finite in Hh as [Hnz ->]. split; [|by exists q0].
  intros ->. apply Hnz. apply Qc_is_canon. reflexivity.
Qed.

End MinerFacts.

(** ** The traversals of a tree *)

Section TreeFacts.
Context {V : Type}.
Import Tree.

Lemma forest_size_pushed (n : node V) : forest_size (pushed n) = size n.
Proof. destruct n; unfold forest_size; simpl; lia. Qed.

Lemma forest_size_cons (value : V) (l r : node V) (q : list (entry V)) :
  forest_size ((value, l, r) :: q) = S (size l + size r + forest_size q).
Proof. done. Qed.

Lemma forest_size_app (q1 q2 : list (entry V)) :
  forest_size (q1 ++ q2) = forest_size q1 + forest_size q2.
Proof. unfold forest_size. by rewrite fmap_app, sum_list_with_app. Qed.

Lemma flat_map_preorder_pushed (n : node V) :
  flat_map (preorder ∘ of_entry) (pushed n) = preorder n.
Proof. destruct n; simpl; [done|]. by rewrite app_nil_r. Qed.

Lemma preOrder_loop_spec (fuel : nat) (stack : list (entry V)) (log : list V) :
  forest_size stack ≤ fuel →
  preOrder_loop fuel stack log = Some ([], log ++ flat_map (preorder ∘ of_entry) stack).
Proof.
  revert stack log. induction fuel as [|fuel IH]; intros [|[[value l] r] rest] log Hfuel.
  - simpl. by rewrite app_nil_r.
  - rewrite forest_size_cons in Hfuel. lia.
  - simpl. by rewrite app_nil_r.
  - cbn [preOrder_loop]. rewrite IH.
    + rewrite !flat_map_app, !flat_map_preorder_pushed. simpl.
      by rewrite <- !app_assoc.
    + rewrite !forest_size_app, !forest_size_pushed.
      rewrite forest_size_cons in Hfuel. lia.
Qed.

(** X28: given fuel for as many iterations as the tree has nodes,
    preOrderTraversal writes the values to the console in preorder (a node,
    then its left subtree, then its right subtree) and returns its stack,
    which is empty by then: the values are not in what it returns.  For
    null it writes nothing and returns undefined. *)
Theorem preOrderTraversal_spec (fuel : nat) (root : node V) :
  size root ≤ fuel →
  preOrderTraversal fuel root
  = Some (match root with null => None | Node _ _ _ => Some [] end, preorder root).
Proof.
  intros Hfuel. destruct root as [|value l r]; [done|].
  unfold preOrderTraversal. rewrite preOrder_loop_spec.
  - simpl. by rewrite app_nil_r.
  - rewrite forest_size_cons. simpl in *. unfold forest_size. simpl. lia.
Qed.

Lemma levelOrder_loop_level (a b : list (entry V)) (result : list V) (fuel : nat) :
  levelOrder_loop (length a + fuel) (a ++ b) result
  = levelOrder_loop fuel (b ++ children a) (result ++ roots a).
Proof.
  revert b result. induction a as [|[[value l] r] a IH]; intros b result; simpl.
  - by rewrite !app_nil_r.
  - rewrite <- app_assoc, IH. unfold children. simpl.
    by rewrite <- !app_assoc.
Qed.

Lemma forest_size_children (q : list (entry V)) :
  forest_size q = length q + forest_size (children q).
Proof.
  induction q as [|[[value l] r] q IH]; [done|].
  rewrite forest_size_cons. unfold children in *. cbn [flat_map fst snd length].
  rewrite !forest_size_app, !forest_size_pushed. lia.
Qed.

Lemma forest_at_depth_0 (q : list (entry V)) : forest_at_depth 0 q = roots q.
Proof. induction q as [|[[value l] r] q IH]; [done|]. simpl. by rewrite <- IH. Qed.

Lemma forest_at_depth_pushed (d : nat) (n : node V) :
  forest_at_depth d (pushed n) = at_depth d n.
Proof. destruct n; unfold forest_at_depth; simpl; [by destruct d|]. by rewrite app_nil_r. Qed.

Lemma forest_at_depth_app (d : nat) (q1 q2 : list (entry V)) :
  forest_at_depth d (q1 ++ q2) = forest_at_depth d q1 ++ forest_at_depth d q2.
Proof. apply flat_map_app. Qed.

Lemma forest_at_depth_S (d : nat) (q : list (entry V)) :
  forest_at_depth (S d) q = forest_at_depth d (children q).
Proof.
  induction q as [|[[value l] r] q IH]; [done|].
  unfold children in *. simpl.
  rewrite !forest_at_depth_app, !forest_at_depth_pushed, <- IH. simpl.
  by rewrite <- app_assoc.
Qed.

Lemma height_children (h : nat) (q : list (entry V)) :
  Forall (λ e, height (of_entry e) ≤ S h) q →
  Forall (λ e, height (of_entry e) ≤ h) (children q).
Proof.
  induction 1 as [|[[value l] r] q Hh _ IH]; [constructor|].
  unfold children in *. simpl in *. rewrite !Forall_app. split; [split|done].
  - destruct l; simpl; constructor; [|done]. simpl in *. lia.
  - destruct r; simpl; constructor; [|done]. simpl in *. lia.
Qed.

Lemma levelOrder_loop_spec (h : nat) (q : list (entry V)) (result : list V) (fuel : nat) :
  Forall (λ e, height (of_entry e) ≤ h) q →
  forest_size q ≤ fuel →
  levelOrder_loop fuel q result
  = Some (result ++ concat ((λ d, forest_at_depth d q) <$> seq 0 h)).
Proof.
  revert q result fuel. induction h as [|h IH]; intros q result fuel Hh Hfuel.
  - destruct q as [|[[value l] r] q].
    + destruct fuel; simpl; by rewrite app_nil_r.
    + apply Forall_cons in Hh as [Hh _]. simpl in Hh. lia.
  - rewrite forest_size_children in Hfuel.
    transitivity (levelOrder_loop (length q + (fuel - length q)) (q ++ []) result).
    { rewrite app_nil_r. f_equal. lia. }
    rewrite levelOrder_loop_level. simpl.
    rewrite (IH _ _ _ (height_children h q Hh)) by lia.
    rewrite forest_at_depth_0, <- app_assoc. do 3 f_equal.
    rewrite <- fmap_S_seq, <- list_fmap_compose. f_equal.
    apply list_fmap_ext. intros _ d _. simpl. by rewrite forest_at_depth_S.
Qed.

(** X29: given fuel for as many iterations as the tree has nodes,
    levelOrderTraversal returns the values level by level: those at depth
    0, then those at depth 1, and so on down to the last level, each level
    from left to right.  For null it returns undefined. *)
Theorem levelOrderTraversal_spec (fuel : nat) (root : node V) :
  size root ≤ fuel →
  levelOrderTraversal fuel root
  = Some (match root with
          | null => None
          | Node _ _ _ => Some (concat ((λ d, at_depth d root) <$> seq 0 (height root)))
          end).
Proof.
  intros Hfuel. destruct root as [|value l r]; [done|].
  unfold levelOrderTraversal.
  rewrite (levelOrder_loop_spec (height (Node value l r))).
  - simpl. do 4 f_equal. apply list_fmap_ext. intros _ d _.
    unfold forest_at_depth. simpl. by rewrite app_nil_r.
  - by repeat constructor.
  - rewrite forest_size_cons. simpl in *. unfold forest_size. simpl. lia.
Qed.

End TreeFacts.

(** ** The properties above on concrete runs *)

Lemma Demo_fresh_reachable : @reachable Demo.crypto Demo.fresh.
Proof. exists 1000%Z. apply rtc_refl. Qed.

Lemma Cases_one_transfer_pool_reachable : @reachable Demo.crypto Cases.one_transfer_pool.
Proof.
  destruct Demo_after_first_block_reachable as [now Hnow]. exists now.
  eapply rtc_r; [exact Hnow|].
  eapply (@step_addTransaction Demo.crypto Scenario.spend1). vm_compute. reflexivity.
Qed.

Lemma createToken_once_witness :
  rtc (@call Demo.crypto) Runs.gold_200 Cases.after_failed_commit
  ∧ length (Blockchain.chain Cases.after_failed_commit) = 2
  ∧ Blockchain.createToken "Gold" "AU" (dec 7 1) (Some "bob") 1600 Cases.after_failed_commit
    = Blockchain.Throw Blockchain.TokenAlreadyExists Cases.after_failed_commit.
Proof.
  assert (rtc (@call Demo.crypto) Runs.gold_200 Cases.after_failed_commit) as Hcalls.
  { apply (rtc_l _ _ (accepted Runs.carol_mint Runs.gold_200));
      [exact (@call_addTransaction Demo.crypto Runs.carol_mint Runs.gold_200)|].
    apply (rtc_l _ _ Runs.overdrawn_pool);
      [exact (@call_addTransaction Demo.crypto Runs.token_overdraw
                (accepted Runs.carol_mint Runs.gold_200))|].
    apply rtc_once.
    exact (@call_minePendingTransactions Demo.crypto 10 (Demo.env "r2" 4000) (Some "dave")
             Runs.overdrawn_pool
             (Blockchain.Throw Blockchain.InsufficientTokenBalance Cases.after_failed_commit)
             ltac:(vm_compute; reflexivity)). }
  split; [exact Hcalls|]. split; [reflexivity|].
  exact (@createToken_once Demo.crypto "Gold" "GLD" "AU" (dec 200 1) (dec 7 1) (Some "alice")
           (Some "bob") 1500 1600 Demo.fresh Runs.gold_200 _ eq_refl Hcalls).
Defined.

Lemma transferToken_between_witness :
  ∃ st',
    Blockchain.transferToken (Some "Gold") (Some "alice") (Some "bob") (dec 20 1) Runs.gold_200
    = Blockchain.Return tt st'
    ∧ (dec 20 1 ≤ Blockchain.getTokenBalance (Some "alice") (Some "Gold") Runs.gold_200)%Qc
    ∧ Blockchain.getTokenBalance (Some "alice") (Some "Gold") st' = dec 180 1
    ∧ Blockchain.getTokenBalance (Some "bob") (Some "Gold") st' = dec 20 1.
Proof.
  eexists. split; [vm_compute; reflexivity|].
  destruct (transferToken_between (Some "Gold") (Some "alice") (Some "bob") (dec 20 1)
              Runs.gold_200 _ ltac:(discriminate) ltac:(vm_compute; reflexivity))
    as [Hle Hbal].
  split; [exact Hle|]. split; rewrite Hbal; vm_compute; reflexivity.
Defined.

Lemma transferToken_to_self_witness :
  ∃ st',
    Blockchain.transferToken (Some "Gold") (Some "alice") (Some "alice") (dec 20 1) Runs.gold_200
    = Blockchain.Return tt st'
    ∧ ∀ address tokenName',
        Blockchain.getTokenBalance address tokenName' st'
        = Blockchain.getTokenBalance address tokenName' Runs.gold_200.
Proof.
  eexists. split; [vm_compute; reflexivity|].
  apply (transferToken_to_self (Some "Gold") (Some "alice") (dec 20 1) Runs.gold_200).
  - by vm_compute.
  - apply Qc_is_canon. vm_compute. reflexivity.
  - apply Qc_is_canon. vm_compute. reflexivity.
  - vm_compute. reflexivity.
Defined.

Lemma transferToken_conserves_witness :
  ∃ st',
    Blockchain.transferToken (Some "Gold") (Some "alice") (Some "bob") (dec 20 1) Runs.gold_200
    = Blockchain.Return tt st'
    ∧ Blockchain.circulating (Some "Gold") st'
      = Blockchain.circulating (Some "Gold") Runs.gold_200.
Proof.
  eexists. split; [vm_compute; reflexivity|].
  apply (transferToken_conserves (Some "Gold") (Some "alice") (Some "bob") (dec 20 1)
           Runs.gold_200 _ (Some "Gold")).
  - by vm_compute.
  - apply Qc_is_canon. vm_compute. reflexivity.
  - apply Qc_is_canon. vm_compute. reflexivity.
  - intros _. apply Qc_is_canon. vm_compute. reflexivity.
  - vm_compute. reflexivity.
Defined.



Lemma isChainValid_ignores_genesis_witness :
  Block.hash (Block.set_nonce 7 (@Blockchain.createGenesisBlock Demo.crypto 1000))
  = Block.hash (@Blockchain.createGenesisBlock Demo.crypto 1000)
  ∧ @Blockchain.isChainValid Demo.crypto
      (Blockchain.set_chain
         (Block.set_nonce 7 (@Blockchain.createGenesisBlock Demo.crypto 1000)
          :: tail (Blockchain.chain Demo.after_first_block)) Demo.after_first_block)
    = @Blockchain.isChainValid Demo.crypto
        (Blockchain.set_chain
           (@Blockchain.createGenesisBlock Demo.crypto 1000
            :: tail (Blockchain.chain Demo.after_first_block)) Demo.after_first_block).
Proof.
  split; [reflexivity|].
  apply (@isChainValid_ignores_genesis Demo.crypto). reflexivity.
Defined.

Lemma chain_append_only_witness :
  @reachable Demo.crypto Demo.fresh
  ∧ rtc (@step Demo.crypto) Demo.fresh Demo.after_first_block
  ∧ Blockchain.chain Demo.fresh `prefix_of` Blockchain.chain Demo.after_first_block.
Proof.
  assert (rtc (@step Demo.crypto) Demo.fresh Demo.after_first_block) as Hsteps.
  { eapply rtc_l; [|apply rtc_refl].
    eapply (@step_minePendingTransactions Demo.crypto 10 (Demo.env "r1" 2000) (Some "alice")).
    vm_compute. reflexivity. }
  split; [apply Demo_fresh_reachable|]. split; [exact Hsteps|].
  apply (@chain_append_only Demo.crypto Demo.fresh Demo.after_first_block);
    [apply Demo_fresh_reachable | exact Hsteps].
Defined.

Lemma getStats_after_witness :
  @reachable Demo.crypto Demo.after_first_block
  ∧ Blockchain.Stats.pendingTransactions (Blockchain.getStats Cases.one_transfer_pool)
    = S (Blockchain.Stats.pendingTransactions (Blockchain.getStats Demo.after_first_block))
  ∧ Blockchain.Stats.totalBlocks (Blockchain.getStats Cases.one_transfer_pool)
    = Blockchain.Stats.totalBlocks (Blockchain.getStats Demo.after_first_block).
Proof.
  split; [apply Demo_after_first_block_reachable|].
  destruct (@getStats_after Demo.crypto Demo.after_first_block
              Demo_after_first_block_reachable) as (Hadd & _).
  rewrite (Hadd Scenario.spend1 Cases.one_transfer_pool ltac:(vm_compute; reflexivity)).
  split; reflexivity.
Defined.

Lemma searchTransaction_after_block_witness :
  ∃ b st' found,
    @Blockchain.minePendingTransactions Demo.crypto 10 (Demo.env "r7" 9000) (Some "carol")
      Cases.one_transfer_pool = Some (Blockchain.Return b st')
    ∧ Blockchain.searchTransaction "t1" st' = Some found
    ∧ Transaction.id (Blockchain.Found.transaction found) = "t1"
    ∧ Blockchain.Found.height (Blockchain.Found.block_of found) ≤ 2.
Proof.
  eexists _, _.
  destruct (@searchTransaction_after_block Demo.crypto 10 (Demo.env "r7" 9000) (Some "carol")
              Cases.one_transfer_pool _ _ Scenario.spend1
              Cases_one_transfer_pool_reachable
              ltac:(vm_compute; reflexivity)
              ltac:(left; apply list_elem_of_singleton; reflexivity))
    as (found & Hfound & Hid & Hheight).
  exists found. split; [vm_compute; reflexivity|]. split; [exact Hfound|].
  split; [exact Hid | exact Hheight].
Defined.

Lemma Cases_blocked_pool_stuck : stuck Cases.blocked_pool.
Proof.
  split; [discriminate|].
  exists Runs.token_overdraw, []. split; [reflexivity|]. split; [reflexivity|].
  by vm_compute.
Qed.

Lemma stuck_pool_stays_stuck_witness :
  stuck Cases.blocked_pool
  ∧ ∃ st',
      @Blockchain.minePendingTransactions Demo.crypto 10 (Demo.env "r8" 9500) (Some "dave")
        Cases.blocked_pool
      = Some (Blockchain.Throw Blockchain.InsufficientTokenBalance st')
      ∧ stuck st'
      ∧ length (Blockchain.chain st') = 2.
Proof.
  split; [apply Cases_blocked_pool_stuck|].
  destruct (@stuck_pool_stays_stuck Demo.crypto Cases.blocked_pool Cases_blocked_pool_stuck)
    as [Hmine _].
  destruct (Hmine 10 (Demo.env "r8" 9500) (Some "dave"))
    as [Hnone|(st' & Hthrow & Hstuck & Hlen & _)].
  - exfalso. vm_compute in Hnone. discriminate.
  - exists st'. split; [exact Hthrow|]. split; [exact Hstuck|]. exact Hlen.
Defined.

Lemma miner_livelock_witness :
  ∃ st',
    @Miner.miningLoop_pass Demo.crypto 10 9000 9004 (Demo.env "r8" 9500) Cases.carol
      Cases.blocked_pool = Some (Cases.carol, st', Miner.Sleep 5000)
    ∧ stuck st'
    ∧ length (Blockchain.chain st') = length (Blockchain.chain Cases.blocked_pool) + 1
    ∧ Blockchain.balances st' = Blockchain.balances Cases.blocked_pool.
Proof.
  eexists. split; [vm_compute; reflexivity|].
  destruct (@miner_livelock Demo.crypto 1 Cases.carol Cases.carol Cases.blocked_pool _
              ltac:(reflexivity) Cases_blocked_pool_stuck
              ltac:(eapply (@miner_passes_S Demo.crypto 0 10 9000 9004 (Demo.env "r8" 9500));
                    [vm_compute; reflexivity | apply miner_passes_0]))
    as (_ & Hstuck & Hlen & _ & Hbal & _).
  split; [exact Hstuck|]. split; [exact Hlen | exact Hbal].
Defined.

Lemma miner_pass_counts_block_reward_witness :
  ∃ m' st',
    @Miner.miningLoop_pass Demo.crypto 10 9000 9004 (Demo.env "r7" 9000) Cases.carol
      Cases.one_transfer_pool = Some (m', st', Miner.Sleep 100)
    ∧ Miner.blocksMinedTotal (Miner.stats m') = 1
    ∧ Miner.totalReward (Miner.stats m') = dec 10002 1000
    ∧ Miner.getBalance m' st' = dec 10 1.
Proof.
  eexists _, _. split; [vm_compute; reflexivity|].
  destruct (@miner_pass_counts_block_reward Demo.crypto 10 9000 9004 (Demo.env "r7" 9000)
              Cases.carol _ Cases.one_transfer_pool _ _
              Cases_one_transfer_pool_reachable
              ltac:(reflexivity) ltac:(discriminate)
              ltac:(constructor; [|constructor];
                    split; [reflexivity|]; split; [discriminate|]; split; discriminate)
              ltac:(vm_compute; reflexivity))
    as (_ & Hblocks & Hreward & Hbal & _).
  split; [exact Hblocks|]. split.
  - etrans; [exact Hreward|]. apply Qc_is_canon. vm_compute. reflexivity.
  - etrans; [exact Hbal|]. apply Qc_is_canon. vm_compute. reflexivity.
Defined.

Lemma updateStats_finite_hashrate_witness :
  ∃ q,
    Miner.totalHashrate (Miner.stats (Miner.updateStats Cases.at_nonce_3 4 Cases.carol))
    = Finite q
    ∧ (4 ≠ 0)%Z
    ∧ ∃ q0, Miner.totalHashrate (Miner.stats Cases.carol) = Finite q0
        ∧ q = (q0 + Q2Qc (inject_Z (Z.of_N (Block.nonce Cases.at_nonce_3)))
                    / (Q2Qc (inject_Z 4) / dec 1000 1))%Qc.
Proof.
  eexists. split; [vm_compute; reflexivity|].
  apply (updateStats_finite_hashrate Cases.at_nonce_3 4 Cases.carol).
  vm_compute. reflexivity.
Defined.

Lemma preOrderTraversal_spec_witness :
  Tree.size Cases.small_tree ≤ 5
  ∧ Tree.preOrderTraversal 5 Cases.small_tree = Some (Some [], [1; 2; 4; 3; 5]).
Proof.
  split; [simpl; lia|].
  apply (preOrderTraversal_spec 5 Cases.small_tree). simpl. lia.
Defined.

Lemma levelOrderTraversal_spec_witness :
  Tree.size Cases.small_tree ≤ 5
  ∧ Tree.levelOrderTraversal 5 Cases.small_tree = Some (Some [1; 2; 3; 4; 5]).
Proof.
  split; [simpl; lia|].
  apply (levelOrderTraversal_spec 5 Cases.small_tree). simpl. lia.
Defined.
